(** * NPC decision engine of the snake game (src/server/npcAI.js)

    A shallow embedding of the bot logic: the coordinate helper, the
    occupancy oracle, the safe-move filter, the breadth-first pathfinder,
    the flood-fill space estimator, the difficulty table, the decision
    policy and the per-tick dispatcher, followed by the properties the
    specification states about them.

    Conventions of the embedding.
    - Coordinates are JavaScript integers, modelled as [Z]; the remainder
      operator [%] is the truncating one, [Z.rem].
    - [GRID_WIDTH] and [GRID_HEIGHT] are imported by the source from
      ./gameLogic; they are parameters of the development.
    - A [Set] of keys [`${x},${y}`] is a list of positions: the key is
      injective on integer coordinates.
    - Every key of [gameState.players] and of the agents' [Map] holds an
      object of its own; an in-place update of an object is an update of
      the entry.
    - [Math.random()] reads the next element of an explicit sequence of
      draws; the position in that sequence is threaded through the calls.
    - The two [while] loops are bounded by a fuel that is a function of the
      grid; running out of it is the error [OutOfFuel], and the theorems show
      that it never happens.  Reading [tail.x] of an empty snake is the
      JavaScript [TypeError].
    - A tier is its name, a string; [settings[difficulty] || settings.medium]
      is the table with the middle tier as the default.  Names that every
      JavaScript object inherits, such as [constructor], are outside the
      model: the further properties that depend on the settings are stated
      for the three names of the table. *)

From Stdlib Require Import ZArith List Bool String QArith Qround Lia.
From Stdlib Require Import Permutation Sorted.
Import ListNotations.
Local Open Scope Z_scope.

(** ** Results of fallible computations *)

Inductive error : Type := TypeError | OutOfFuel.

Inductive result (A : Type) : Type :=
| Ok (a : A)
| Err (e : error).

Arguments Ok {A} a.
Arguments Err {A} e.

Definition bind {A B : Type} (c : result A) (k : A -> result B) : result B :=
  match c with
  | Ok a => k a
  | Err e => Err e
  end.

Notation "x <- c ;; k" := (bind c (fun x => k))
  (at level 61, c at next level, right associativity).
Notation "' pat <- c ;; k" := (bind c (fun x => match x with pat => k end))
  (at level 61, pat pattern, c at next level, right associativity).

(** A [for ... of] loop whose body may throw and that updates an
    accumulator. *)
Fixpoint forEach {A S : Type} (body : S -> A -> result S) (l : list A) (s : S)
  : result S :=
  match l with
  | [] => Ok s
  | a :: rest => s' <- body s a ;; forEach body rest s'
  end.

(** ** Data model *)

Inductive Direction : Type := Up | Down | Left | Right.

Record Pos : Type := mkPos { pos_x : Z; pos_y : Z }.

(** A difficulty tier is its name; three names are known. *)
Definition Difficulty : Type := string.

Definition easy : Difficulty := "easy"%string.
Definition medium : Difficulty := "medium"%string.
Definition hard : Difficulty := "hard"%string.

Record Settings : Type := mkSettings {
  reactionDelayFrames : Z;
  errorChance : Q;
  usePathfinding : bool;
  safetyCheck : bool
}.

Record NPC : Type := mkNPC {
  npc_id : string;
  npc_name : string;
  npc_type : string;
  difficulty : Difficulty;
  targetFood : option Pos;
  decisionDelay : Z
}.

Record Player : Type := mkPlayer {
  player_id : string;
  player_type : string;
  isAlive : bool;
  snake : list Pos;
  direction : Direction;
  nextDirection : Direction
}.

(** [players] lists the values of the [players] object in the order
    [Object.values] enumerates them. *)
Record GameState : Type := mkGameState {
  wallMode : bool;
  players : list Player;
  food : list Pos
}.

Definition Direction_eqb (a b : Direction) : bool :=
  match a, b with
  | Up, Up | Down, Down | Left, Left | Right, Right => true
  | _, _ => false
  end.

Definition samePos (a b : Pos) : bool :=
  (pos_x a =? pos_x b) && (pos_y a =? pos_y b).

(** [visited.has(key)] and [visited.add(key)] *)
Definition setHas (p : Pos) (s : list Pos) : bool := existsb (samePos p) s.

Definition setAdd (p : Pos) (s : list Pos) : list Pos :=
  if setHas p s then s else p :: s.

(** [safeMoves.includes(move)] *)
Definition includes (m : Direction) (l : list Direction) : bool :=
  existsb (Direction_eqb m) l.

Definition createNPC (playerId name : string) (d : Difficulty) : NPC :=
  {| npc_id := playerId; npc_name := name; npc_type := "npc";
     difficulty := d; targetFood := None; decisionDelay := 0 |}.

(** [settings[difficulty] || settings.medium] *)
Definition getDifficultySettings (d : Difficulty) : Settings :=
  if String.eqb d easy then
    {| reactionDelayFrames := 10; errorChance := (25 # 100)%Q;
       usePathfinding := false; safetyCheck := false |}
  else if String.eqb d medium then
    {| reactionDelayFrames := 4; errorChance := (5 # 100)%Q;
       usePathfinding := true; safetyCheck := false |}
  else if String.eqb d hard then
    {| reactionDelayFrames := 0; errorChance := 0%Q;
       usePathfinding := true; safetyCheck := true |}
  else
    {| reactionDelayFrames := 4; errorChance := (5 # 100)%Q;
       usePathfinding := true; safetyCheck := false |}.

Definition possibleMoves : list Direction := [Up; Down; Left; Right].

Definition opposites (d : Direction) : Direction :=
  match d with
  | Up => Down
  | Down => Up
  | Left => Right
  | Right => Left
  end.

Section Grid.

Variables GRID_WIDTH GRID_HEIGHT : Z.

(** *** Coordinate helper *)

Definition getNextCoord (pos : Pos) (d : Direction) (wall : bool) : Pos :=
  let x := match d with
           | Left => pos_x pos - 1
           | Right => pos_x pos + 1
           | _ => pos_x pos
           end in
  let y := match d with
           | Up => pos_y pos - 1
           | Down => pos_y pos + 1
           | _ => pos_y pos
           end in
  if wall then mkPos x y
  else mkPos (Z.rem (x + GRID_WIDTH) GRID_WIDTH)
             (Z.rem (y + GRID_HEIGHT) GRID_HEIGHT).

Definition outOfBounds (pos : Pos) : bool :=
  (pos_x pos <? 0) || (pos_x pos >=? GRID_WIDTH) ||
  (pos_y pos <? 0) || (pos_y pos >=? GRID_HEIGHT).

(** *** Occupancy oracle *)

(** The loop over [Object.values(gameState.players)]: the segments before
    the last one, then the tail tip, for every living player. *)
Fixpoint occupiedByPlayers (ps : list Player) (pos : Pos) : result bool :=
  match ps with
  | [] => Ok false
  | player :: rest =>
      if negb (isAlive player) then occupiedByPlayers rest pos
      else if existsb (fun seg => samePos seg pos)
                (firstn (List.length (snake player) - 1)%nat (snake player))
      then Ok true
      else match nth_error (snake player) (List.length (snake player) - 1)%nat with
           | None => Err TypeError
           | Some tail =>
               if samePos tail pos then Ok true
               else occupiedByPlayers rest pos
           end
  end.

Definition isOccupied (pos : Pos) (gs : GameState) (myId : string)
  : result bool :=
  if wallMode gs && outOfBounds pos then Ok true
  else occupiedByPlayers (players gs) pos.

(** *** Safe-move filter *)

Definition isMoveImmediatelySafe (head : Pos) (d : Direction) (gs : GameState)
  (myId : string) : result bool :=
  let nextPos := getNextCoord head d (wallMode gs) in
  if wallMode gs && outOfBounds nextPos then Ok false
  else b <- isOccupied nextPos gs myId ;; Ok (negb b).

(** [possibleMoves.filter(move => isMoveImmediatelySafe(...))] *)
Fixpoint filterSafe (head : Pos) (gs : GameState) (myId : string)
  (moves : list Direction) : result (list Direction) :=
  match moves with
  | [] => Ok []
  | m :: rest =>
      b <- isMoveImmediatelySafe head m gs myId ;;
      l <- filterSafe head gs myId rest ;;
      Ok (if b then m :: l else l)
  end.

(** *** Fuel of the two searches *)

Definition searchFuel : nat :=
  (Z.to_nat ((2 * GRID_WIDTH) * (2 * GRID_HEIGHT)) + 6)%nat.

(** *** Pathfinder *)

Record QEntry : Type := mkEntry {
  q_pos : Pos;
  q_firstMove : Direction;
  q_dist : Z
}.

Definition depthCap : Z := 50.

(** The seeding loop: the free neighbours of the start, each with the move
    that reaches it (no [visited.has] test here). *)
Definition seedNeighbour (startPos : Pos) (gs : GameState) (myId : string)
  (st : list QEntry * list Pos) (move : Direction)
  : result (list QEntry * list Pos) :=
  let next := getNextCoord startPos move (wallMode gs) in
  b <- isOccupied next gs myId ;;
  if negb b
  then Ok (fst st ++ [mkEntry next move 1], setAdd next (snd st))
  else Ok st.

(** The expansion loop of a dequeued entry. *)
Definition enqueueNeighbour (e : QEntry) (gs : GameState) (myId : string)
  (st : list QEntry * list Pos) (move : Direction)
  : result (list QEntry * list Pos) :=
  let next := getNextCoord (q_pos e) move (wallMode gs) in
  if setHas next (snd st) then Ok st
  else
    b <- isOccupied next gs myId ;;
    if negb b
    then Ok (fst st ++ [mkEntry next (q_firstMove e) (q_dist e + 1)],
             setAdd next (snd st))
    else Ok st.

Fixpoint bfsLoop (fuel : nat) (gs : GameState) (myId : string)
  (queue : list QEntry) (visited : list Pos)
  : result (option (Direction * Z)) :=
  match fuel with
  | O => Err OutOfFuel
  | S fuel' =>
      match queue with
      | [] => Ok None
      | e :: rest =>
          if existsb (fun f => samePos (q_pos e) f) (food gs)
          then Ok (Some (q_firstMove e, q_dist e))
          else if q_dist e >? depthCap
          then bfsLoop fuel' gs myId rest visited
          else
            '(queue', visited') <-
              forEach (enqueueNeighbour e gs myId) possibleMoves (rest, visited) ;;
            bfsLoop fuel' gs myId queue' visited'
      end
  end.

Definition findPathToClosestFood (startPos : Pos) (gs : GameState)
  (myId : string) : result (option (Direction * Z)) :=
  '(queue, visited) <-
    forEach (seedNeighbour startPos gs myId) possibleMoves ([], []) ;;
  bfsLoop searchFuel gs myId queue visited.

(** *** Reachable-space estimator *)

Definition pushNeighbour (current : Pos) (gs : GameState) (myId : string)
  (st : list Pos * list Pos) (move : Direction)
  : result (list Pos * list Pos) :=
  let next := getNextCoord current move (wallMode gs) in
  if setHas next (snd st) then Ok st
  else
    b <- isOccupied next gs myId ;;
    if negb b then Ok (next :: fst st, setAdd next (snd st)) else Ok st.

(** The stack is a list whose head is the top. *)
Fixpoint floodLoop (fuel : nat) (gs : GameState) (myId : string)
  (limit : Z) (stack visited : list Pos) (count : Z) : result Z :=
  match fuel with
  | O => Err OutOfFuel
  | S fuel' =>
      match stack with
      | [] => Ok count
      | current :: rest =>
          let count' := count + 1 in
          if count' >=? limit then Ok limit
          else
            '(stack', visited') <-
              forEach (pushNeighbour current gs myId) possibleMoves
                (rest, visited) ;;
            floodLoop fuel' gs myId limit stack' visited' count'
      end
  end.

Definition countAccessibleTiles (startPos : Pos) (gs : GameState)
  (myId : string) (limit : Z) : result Z :=
  floodLoop searchFuel gs myId limit [startPos] (setAdd startPos []) 0.

(** *** Decision policy *)

Definition snakeLength (player : Player) : Z :=
  Z.of_nat (List.length (snake player)).

(** The tier used for this decision ([effectiveDifficulty] in the source). *)
Definition effectiveDifficulty (npc : NPC) (player : Player) : Difficulty :=
  if (snakeLength player >? 20) && String.eqb (difficulty npc) easy then medium
  else if (snakeLength player >? 30) && String.eqb (difficulty npc) medium
  then hard
  else difficulty npc.

Definition setDecisionDelay (npc : NPC) (d : Z) : NPC :=
  {| npc_id := npc_id npc; npc_name := npc_name npc; npc_type := npc_type npc;
     difficulty := difficulty npc; targetFood := targetFood npc;
     decisionDelay := d |}.

Definition Qltb (a b : Q) : bool := negb (Qle_bool b a).

(** [arr[i]] for an integer index: [undefined] outside the array. *)
Definition pickAt (l : list Direction) (i : Z) : option Direction :=
  if i <? 0 then None else nth_error l (Z.to_nat i).

(** [d < m] where [m] starts as [Infinity] ([None]). *)
Definition ltInf (d : Z) (m : option Z) : bool :=
  match m with
  | None => true
  | Some v => d <? v
  end.

(** Manhattan distance between [target] and [nextPos], folded over the
    torus when the grid wraps. *)
Definition stepDistance (gs : GameState) (target nextPos : Pos) : Z :=
  let dx := Z.abs (pos_x target - pos_x nextPos) in
  let dy := Z.abs (pos_y target - pos_y nextPos) in
  if negb (wallMode gs)
  then Z.min dx (GRID_WIDTH - dx) + Z.min dy (GRID_HEIGHT - dy)
  else dx + dy.

(** The loop that keeps the first move of least distance to [target]. *)
Definition closerStep (gs : GameState) (head target : Pos)
  (st : option Direction * option Z) (move : Direction)
  : option Direction * option Z :=
  let dist := stepDistance gs target (getNextCoord head move (wallMode gs)) in
  if ltInf dist (snd st) then (Some move, Some dist) else st.

(** Step 4.A: the first move of the food path, when it is safe and the
    space behind it is large enough; [None] falls through. *)
Definition foodPathMove (settings : Settings) (head : Pos) (gs : GameState)
  (player : Player) (safeMoves : list Direction) : result (option Direction) :=
  pathResult <- findPathToClosestFood head gs (player_id player) ;;
  match pathResult with
  | Some (bestMove, _) =>
      if includes bestMove safeMoves then
        let nextPos := getNextCoord head bestMove (wallMode gs) in
        if safetyCheck settings then
          availableSpace <-
            countAccessibleTiles nextPos gs (player_id player)
              (snakeLength player) ;;
          Ok (if availableSpace >=? snakeLength player
              then Some bestMove else None)
        else
          space <- countAccessibleTiles nextPos gs (player_id player) 20 ;;
          Ok (if 2 * space >=? snakeLength player
              then Some bestMove else None)
      else Ok None
  | None => Ok None
  end.

Definition spaceStep (head : Pos) (gs : GameState) (player : Player)
  (st : option Direction * Z) (move : Direction)
  : result (option Direction * Z) :=
  let nextPos := getNextCoord head move (wallMode gs) in
  space <- countAccessibleTiles nextPos gs (player_id player) 100 ;;
  if space >? snd st then Ok (Some move, space) else Ok st.

(** Step 4.B: survival mode of the top tier. *)
Definition survivalMove (head : Pos) (gs : GameState) (player : Player)
  (safeMoves : list Direction) : result (option Direction) :=
  '(bestSurvivalMove, maxSpace) <-
    forEach (spaceStep head gs player) safeMoves (None, -1) ;;
  if maxSpace >=? snakeLength player then Ok bestSurvivalMove
  else
    match nth_error (snake player) (List.length (snake player) - 1)%nat with
    | Some tail =>
        match fst (fold_left (closerStep gs head tail) safeMoves (None, None))
        with
        | Some closestToTail => Ok (Some closestToTail)
        | None => Ok bestSurvivalMove
        end
    | None => Ok bestSurvivalMove
    end.

(** The food of least raw Manhattan distance to the head; [food[0]] is the
    default. *)
Definition nearerFood (head : Pos) (st : option Pos * option Z) (f : Pos)
  : option Pos * option Z :=
  let d := Z.abs (pos_x f - pos_x head) + Z.abs (pos_y f - pos_y head) in
  if ltInf d (snd st) then (Some f, Some d) else st.

Definition pickTargetFood (head : Pos) (gs : GameState) : option Pos :=
  fst (fold_left (nearerFood head) (food gs) (nth_error (food gs) 0, None)).

(** Step 5, second half: hot/cold steering. *)
Definition hotColdMove (head : Pos) (gs : GameState)
  (firstSafe : Direction) (safeMoves : list Direction) : Direction :=
  match pickTargetFood head gs with
  | Some target =>
      match fst (fold_left (closerStep gs head target) safeMoves
                   (Some firstSafe, None)) with
      | Some m => m
      | None => firstSafe
      end
  | None => firstSafe
  end.

(** Step 5: straight preference of the lowest tier, then hot/cold.  [k] is
    the position of the next draw. *)
Definition fallbackMove (rand : nat -> Q) (k : nat) (settings : Settings)
  (head : Pos) (gs : GameState) (player : Player)
  (firstSafe : Direction) (safeMoves : list Direction) : Direction * nat :=
  if negb (usePathfinding settings) && includes (direction player) safeMoves
  then
    if Qltb (rand k) (6 # 10)%Q then (direction player, S k)
    else (hotColdMove head gs firstSafe safeMoves, S k)
  else (hotColdMove head gs firstSafe safeMoves, k).

(** [decideNPCMove npc gameState player], from the draw at position [k]:
    the proposed direction ([None] is [null]), the agent after the call and
    the position of the next draw. *)
Definition decideNPCMove (rand : nat -> Q) (npc : NPC) (gs : GameState)
  (player : Player) (k : nat) : result (option Direction * NPC * nat) :=
  match snake player with
  | [] => Ok (None, npc, k)
  | head :: _ =>
      if negb (isAlive player) then Ok (None, npc, k)
      else
        let settings := getDifficultySettings (effectiveDifficulty npc player) in
        if decisionDelay npc >? 0
        then Ok (None, setDecisionDelay npc (decisionDelay npc - 1), k)
        else
          let npc' := setDecisionDelay npc (reactionDelayFrames settings) in
          safeMoves <- filterSafe head gs (player_id player) possibleMoves ;;
          match safeMoves with
          | [] => Ok (None, npc', k)
          | firstSafe :: _ =>
              if Qltb (rand k) (errorChance settings)
              then
                let i := Qfloor (rand (S k) *
                                 inject_Z (Z.of_nat (List.length safeMoves))) in
                Ok (pickAt safeMoves i, npc', S (S k))
              else
                let fallback :=
                  let '(m, k') :=
                    fallbackMove rand (S k) settings head gs player
                      firstSafe safeMoves in
                  Ok (Some m, npc', k') in
                if usePathfinding settings then
                  committed <- foodPathMove settings head gs player safeMoves ;;
                  match committed with
                  | Some bestMove => Ok (Some bestMove, npc', S k)
                  | None =>
                      if safetyCheck settings then
                        m <- survivalMove head gs player safeMoves ;;
                        Ok (m, npc', S k)
                      else fallback
                  end
                else fallback
          end
  end.

(** *** Tick dispatcher *)

(** The [Map] from player identity to Bot Agent. *)
Definition Agents : Type := list (string * NPC).

Fixpoint getNPC (id : string) (npcs : Agents) : option NPC :=
  match npcs with
  | [] => None
  | (key, npc) :: rest => if String.eqb key id then Some npc else getNPC id rest
  end.

(** The agent stored under [id] after [decideNPCMove] has updated it in
    place. *)
Fixpoint putNPC (id : string) (npc' : NPC) (npcs : Agents) : Agents :=
  match npcs with
  | [] => []
  | (key, npc) :: rest =>
      if String.eqb key id then (key, npc') :: rest
      else (key, npc) :: putNPC id npc' rest
  end.

Definition setNextDirection (player : Player) (d : Direction) : Player :=
  {| player_id := player_id player; player_type := player_type player;
     isAlive := isAlive player; snake := snake player;
     direction := direction player; nextDirection := d |}.

(** The reversal guard and the write of [player.nextDirection]. *)
Definition commitDirection (player : Player) (proposal : option Direction)
  : Player :=
  match proposal with
  | Some d =>
      if negb (Direction_eqb (opposites d) (direction player))
      then setNextDirection player d
      else player
  | None => player
  end.

(** The [forEach] over the players: [done] are the players already visited
    (as the loop left them), [todo] the remaining ones.  The last component
    of the result is a record of what [decideNPCMove] returned for each bot
    consulted; the source does not keep it. *)
Fixpoint processLoop (rand : nat -> Q) (wall : bool) (foods : list Pos)
  (done todo : list Player) (npcs : Agents) (k : nat)
  (proposals : list (string * option Direction))
  : result (list Player * Agents * nat * list (string * option Direction)) :=
  match todo with
  | [] => Ok (done, npcs, k, proposals)
  | player :: rest =>
      if negb (String.eqb (player_type player) "npc") || negb (isAlive player)
      then processLoop rand wall foods (done ++ [player]) rest npcs k proposals
      else
        match getNPC (player_id player) npcs with
        | None =>
            processLoop rand wall foods (done ++ [player]) rest npcs k proposals
        | Some npc =>
            let gs := mkGameState wall (done ++ player :: rest) foods in
            '(proposal, npc', k') <- decideNPCMove rand npc gs player k ;;
            processLoop rand wall foods
              (done ++ [commitDirection player proposal]) rest
              (putNPC (player_id player) npc' npcs) k'
              (proposals ++ [(player_id player, proposal)])
        end
  end.

Definition processNPCInputsLog (rand : nat -> Q) (gs : GameState)
  (npcs : Agents) (k : nat)
  : result (GameState * Agents * nat * list (string * option Direction)) :=
  '(ps, npcs', k', proposals) <-
    processLoop rand (wallMode gs) (food gs) [] (players gs) npcs k [] ;;
  Ok (mkGameState (wallMode gs) ps (food gs), npcs', k', proposals).

(** [processNPCInputs gameState npcs]: the game state and the agents after
    the call, and the position of the next draw. *)
Definition processNPCInputs (rand : nat -> Q) (gs : GameState)
  (npcs : Agents) (k : nat) : result (GameState * Agents * nat) :=
  '(gs', npcs', k', _) <- processNPCInputsLog rand gs npcs k ;;
  Ok (gs', npcs', k').

(** ** Specification vocabulary *)

(** Data-model invariant: a living player has at least one segment. *)
Definition snakeOk (p : Player) : Prop := isAlive p = true -> snake p <> [].

Definition wellFormed (gs : GameState) : Prop := Forall snakeOk (players gs).

(** Some living snake has a segment on [pos]. *)
Definition onLivingSnake (ps : list Player) (pos : Pos) : bool :=
  existsb (fun p => isAlive p && setHas pos (snake p)) ps.

(** The oracle as a total function, for well-formed states. *)
Definition blocked (gs : GameState) (pos : Pos) : bool :=
  (wallMode gs && outOfBounds pos) || onLivingSnake (players gs) pos.

Definition zrange (lo : Z) (n : nat) : list Z :=
  map (fun i => lo + Z.of_nat i) (seq 0 n).

(** Every cell a search can enter lies in this box: the grid itself when the
    grid is walled, and the values of the remainder when it wraps. *)
Definition box : list Pos :=
  flat_map
    (fun x => map (mkPos x) (zrange (1 - GRID_HEIGHT)
                               (Z.to_nat (2 * GRID_HEIGHT - 1))))
    (zrange (1 - GRID_WIDTH) (Z.to_nat (2 * GRID_WIDTH - 1))).

(** The cells of the box not yet in the visited set. *)
Definition unseen (visited : list Pos) : list Pos :=
  filter (fun c => negb (setHas c visited)) box.

(** The place of a direction in the fixed order up, down, left, right. *)
Definition rank (d : Direction) : Z :=
  match d with
  | Up => 0
  | Down => 1
  | Left => 2
  | Right => 3
  end.

(** Queue entries are produced and consumed in increasing [key]: by
    distance first, by rank of the first move among equal distances. *)
Definition key (e : QEntry) : Z := 4 * q_dist e + rank (q_firstMove e).

(** The flood fill of [countAccessibleTiles] with the four directions tried
    in the order [moves] instead of up, down, left, right. *)
Fixpoint floodLoopIn (moves : list Direction) (fuel : nat) (gs : GameState)
  (myId : string) (limit : Z) (stack visited : list Pos) (count : Z)
  : result Z :=
  match fuel with
  | O => Err OutOfFuel
  | S fuel' =>
      match stack with
      | [] => Ok count
      | current :: rest =>
          let count' := count + 1 in
          if count' >=? limit then Ok limit
          else
            '(stack', visited') <-
              forEach (pushNeighbour current gs myId) moves (rest, visited) ;;
            floodLoopIn moves fuel' gs myId limit stack' visited' count'
      end
  end.

Definition countAccessibleTilesIn (moves : list Direction) (startPos : Pos)
  (gs : GameState) (myId : string) (limit : Z) : result Z :=
  floodLoopIn moves searchFuel gs myId limit [startPos] (setAdd startPos []) 0.

Section SearchVocabulary.

Variable gs : GameState.
Variable myId : string.

(** One step from [c] in direction [m]. *)
Definition next (c : Pos) (m : Direction) : Pos :=
  getNextCoord c m (wallMode gs).

(** [Reachable start c]: [c] is [start], or is entered from a reachable cell
    by one step onto a cell the oracle does not block. *)
Inductive Reachable (start : Pos) : Pos -> Prop :=
| reach_start : Reachable start start
| reach_step (c : Pos) (m : Direction) :
    Reachable start c ->
    isOccupied (next c m) gs myId = Ok false ->
    Reachable start (next c m).

(** The state of the flood fill between two iterations; [done] are the
    cells already popped. *)
Record FloodInv (start : Pos) (stack visited done : list Pos) : Prop := {
  fi_nodup : NoDup (stack ++ done);
  fi_visited : forall c, In c visited <-> In c (stack ++ done);
  fi_reach : forall c, In c visited -> Reachable start c;
  fi_closed : forall c m, In c done -> blocked gs (next c m) = false ->
                          In (next c m) visited;
  fi_start : In start visited
}.

Definition isFood (p : Pos) : bool :=
  existsb (fun f => samePos p f) (food gs).

(** [Route start fm d c]: [d >= 1] steps lead from [start] to [c], each onto
    a cell the oracle does not block, the first of them in direction [fm]. *)
Inductive Route (start : Pos) : Direction -> Z -> Pos -> Prop :=
| route_first (m : Direction) :
    isOccupied (next start m) gs myId = Ok false ->
    Route start m 1 (next start m)
| route_step (fm : Direction) (d : Z) (c : Pos) (m : Direction) :
    Route start fm d c ->
    isOccupied (next c m) gs myId = Ok false ->
    Route start fm (d + 1) (next c m).

(** The cell at the end of a list of moves, each onto a cell the oracle
    does not block. *)
Fixpoint walk (start : Pos) (ms : list Direction) : option Pos :=
  match ms with
  | [] => Some start
  | m :: rest =>
      match isOccupied (next start m) gs myId with
      | Ok false => walk (next start m) rest
      | _ => None
      end
  end.

(** The entries the seeding loop produces from a list of moves. *)
Definition seeds (start : Pos) (ms : list Direction) : list QEntry :=
  map (fun m => mkEntry (next start m) m 1)
    (filter (fun m => negb (blocked gs (next start m))) ms).

(** The state of the search between two iterations; [deq] are the entries
    already dequeued. *)
Record BfsInv (start : Pos) (queue : list QEntry) (visited : list Pos)
  (deq : list QEntry) : Prop := {
  bi_route : forall e, In e (queue ++ deq) ->
      Route start (q_firstMove e) (q_dist e) (q_pos e) /\
      q_dist e <= depthCap + 1;
  bi_visited : forall c, In c visited <->
      exists e, In e (queue ++ deq) /\ q_pos e = c;
  bi_sorted : StronglySorted (fun a b => key a <= key b) queue;
  bi_before : forall e e', In e deq -> In e' queue -> key e <= key e';
  bi_spread : forall e e', In e queue -> In e' queue -> key e' <= key e + 4;
  bi_nofood : forall e, In e deq -> isFood (q_pos e) = false;
  bi_closed : forall e m, In e deq -> q_dist e <= depthCap ->
      blocked gs (next (q_pos e) m) = false ->
      exists e', In e' (queue ++ deq) /\
                 q_pos e' = next (q_pos e) m /\ key e' <= key e + 4;
  bi_seeds : forall m, blocked gs (next start m) = false ->
      exists e', In e' (queue ++ deq) /\
                 q_pos e' = next start m /\ key e' <= 4 + rank m
}.

(** What the search may answer: a food cell at the end of a route of least
    key, or nothing when no route of at most [depthCap + 1] steps ends on
    food. *)
Definition BfsOutcome (start : Pos) (r : result (option (Direction * Z)))
  : Prop :=
  match r with
  | Ok (Some (fm, d)) =>
      d <= depthCap + 1 /\
      (exists p, Route start fm d p /\ isFood p = true) /\
      (forall fm' d' p', Route start fm' d' p' -> isFood p' = true ->
                         4 * d + rank fm <= 4 * d' + rank fm')
  | Ok None =>
      forall fm' d' p', Route start fm' d' p' -> isFood p' = true ->
                        depthCap + 1 < d'
  | Err _ => False
  end.

End SearchVocabulary.

(** The players the dispatcher consults: bots that are alive. *)
Definition consulted (p : Player) : bool :=
  String.eqb (player_type p) "npc" && isAlive p.

(** A player after the tick: the guard-and-write applied to some proposal,
    and nothing at all for a player that is not consulted. *)
Definition stepPlayer (p p' : Player) : Prop :=
  (exists proposal, p' = commitDirection p proposal) /\
  (consulted p = false -> p' = p).

(** An agent after the tick: the same binding, with at most the
    reaction-delay counter changed. *)
Definition stepAgent (a a' : string * NPC) : Prop :=
  fst a' = fst a /\
  snd a' = setDecisionDelay (snd a) (decisionDelay (snd a')).




(** What the searches read of a player. *)
Definition body (p : Player) : bool * list Pos := (isAlive p, snake p).

(** Two game states that differ at most in the pending directions. *)
Definition sameBoard (gs1 gs2 : GameState) : Prop :=
  wallMode gs1 = wallMode gs2 /\
  food gs1 = food gs2 /\
  map body (players gs1) = map body (players gs2).


(** The cell behind move [m] is not certified a dead end: the estimator,
    run with the snake length as its limit, reports at least that much
    room. *)
Definition roomy (gs : GameState) (player : Player) (head : Pos)
  (m : Direction) : Prop :=
  exists v,
    countAccessibleTiles (getNextCoord head m (wallMode gs)) gs
      (player_id player) (snakeLength player) = Ok v /\
    snakeLength player <= v.

(** The estimator certifies the cell behind move [m] as a dead end. *)
Definition deadEnd (gs : GameState) (player : Player) (head : Pos)
  (m : Direction) : Prop :=
  exists v,
    countAccessibleTiles (getNextCoord head m (wallMode gs)) gs
      (player_id player) (snakeLength player) = Ok v /\
    v < snakeLength player.

(** Consecutive segments are neighbours on a walled board. *)
Fixpoint contiguous (l : list Pos) : bool :=
  match l with
  | a :: (b :: _) as rest =>
      (Z.abs (pos_x a - pos_x b) + Z.abs (pos_y a - pos_y b) =? 1)
      && contiguous rest
  | _ => true
  end.

(** No cell holds two segments. *)
Fixpoint distinct (l : list Pos) : bool :=
  match l with
  | [] => true
  | a :: rest => negb (setHas a rest) && distinct rest
  end.

(** ** Concrete game states used below *)

(** A source of draws that always delivers one half. *)
Definition halves : nat -> Q := fun _ => (1 # 2)%Q.

(** The same draws, written differently. *)
Definition halves' : nat -> Q :=
  fun n => if Nat.eqb n n then (1 # 2)%Q else 0%Q.

Definition demoBot : Player :=
  mkPlayer "bot" "npc" true [mkPos 5 5; mkPos 5 6] Up Up.

Definition demoHuman : Player :=
  mkPlayer "ann" "human" true [mkPos 2 2; mkPos 2 3] Up Left.

Definition demoState : GameState :=
  mkGameState true [demoBot; demoHuman] [mkPos 5 0].

Definition demoAgents : Agents := [("bot"%string, createNPC "bot" "Bot 1" hard)].

(** A lowest-tier agent whose snake has 21 segments. *)
Definition grownBot : Player :=
  mkPlayer "bot" "npc" true
    (map (fun i => mkPos i 0) (zrange 0 21)) Left Left.

Definition soloBot : Player :=
  mkPlayer "bot" "npc" true [mkPos 0 0] Right Right.

Definition food51State : GameState :=
  mkGameState true [soloBot] [mkPos 30 21].

Definition food52State : GameState :=
  mkGameState true [soloBot] [mkPos 30 22].

Definition longSnake : list Pos :=
  [mkPos 1 0; mkPos 1 1; mkPos 0 1]
  ++ map (fun i => mkPos 0 (2 + i)) (zrange 0 28)
  ++ map (fun i => mkPos (1 + i) 29) (zrange 0 22)
  ++ map (fun i => mkPos 22 (28 - i)) (zrange 0 27)
  ++ map (fun i => mkPos (21 - i) 2) (zrange 0 21).

Definition longBot : Player := mkPlayer "bot" "npc" true longSnake Up Up.

Definition pocketState : GameState :=
  mkGameState true [longBot] [mkPos 0 0].

Definition hardAgent : NPC := createNPC "bot" "Bot 1" hard.

(** The wrapping variant of the 10 x 10 board, without snakes. *)
Definition openState : GameState := mkGameState false [] [mkPos 9 0].

(** A bot of one segment that heads down while the only food lies straight
    above it; its pending direction is left. *)
Definition turnBot : Player :=
  mkPlayer "bot" "npc" true [mkPos 5 5] Down Left.

Definition turnState : GameState :=
  mkGameState true [turnBot; demoHuman] [mkPos 5 0].




(** ** Further vocabulary *)

(** The loop body shared by the three "keep the first least" loops of the
    policy (nearest food, hot/cold steering, tail chasing): [cost x] replaces
    the running minimum when it is strictly smaller. *)
Definition keepLess {A : Type} (cost : A -> Z) (st : option A * option Z)
  (x : A) : option A * option Z :=
  if ltInf (cost x) (snd st) then (Some x, Some (cost x)) else st.

(** [m] is the first element of least [cost] in [l]. *)
Definition firstLeast {A : Type} (cost : A -> Z) (l : list A) (m : A) : Prop :=
  exists l1 l2,
    l = l1 ++ m :: l2 /\
    (forall x, In x l1 -> cost m < cost x) /\
    (forall x, In x l2 -> cost m <= cost x).

(** One agent consulted tick after tick, as the dispatcher does: the game
    state and the player of each tick, the proposals in order, the agent and
    the position of the next draw at the end. *)
Fixpoint consultEach (rand : nat -> Q) (npc : NPC)
  (ticks : list (GameState * Player)) (k : nat)
  : result (list (option Direction) * NPC * nat) :=
  match ticks with
  | [] => Ok ([], npc, k)
  | (gs, player) :: rest =>
      '(proposal, npc', k') <- decideNPCMove rand npc gs player k ;;
      '(proposals, npc'', k'') <- consultEach rand npc' rest k' ;;
      Ok (proposal :: proposals, npc'', k'')
  end.

(** The three names of the difficulty table. *)
Definition knownTier (d : Difficulty) : Prop :=
  d = easy \/ d = medium \/ d = hard.

(** A draw as [Math.random] delivers it. *)
Definition validDraw (q : Q) : Prop := (0 <= q)%Q /\ (q < 1)%Q.

(** * Properties *)

(** ** Positions, sets of keys *)

Lemma samePos_eq (a b : Pos) : samePos a b = true <-> a = b.
Proof.
  unfold samePos. rewrite andb_true_iff, !Z.eqb_eq.
  destruct a, b; simpl. split.
  - intros [-> ->]. reflexivity.
  - intros E. inversion E. auto.
Qed.

Lemma samePos_refl (a : Pos) : samePos a a = true.
Proof. apply samePos_eq. reflexivity. Qed.

Lemma samePos_sym (a b : Pos) : samePos a b = samePos b a.
Proof. unfold samePos. rewrite (Z.eqb_sym (pos_x a)), (Z.eqb_sym (pos_y a)). reflexivity. Qed.

Lemma setHas_In (p : Pos) (s : list Pos) : setHas p s = true <-> In p s.
Proof.
  unfold setHas. rewrite existsb_exists. split.
  - intros [q [Hq E]]. apply samePos_eq in E. subst. exact Hq.
  - intros Hp. exists p. split; [exact Hp | apply samePos_refl].
Qed.

Lemma setHas_false (p : Pos) (s : list Pos) : setHas p s = false <-> ~ In p s.
Proof.
  rewrite <- setHas_In. destruct (setHas p s); split; congruence.
Qed.

Lemma setAdd_In (p c : Pos) (s : list Pos) :
  In c (setAdd p s) <-> c = p \/ In c s.
Proof.
  unfold setAdd. destruct (setHas p s) eqn:E.
  - apply setHas_In in E. split; [auto | intros [-> | ?]; auto].
  - simpl. split; intros [? | ?]; auto.
Qed.

Lemma Direction_eqb_eq (a b : Direction) : Direction_eqb a b = true <-> a = b.
Proof. destruct a, b; simpl; split; congruence. Qed.

Lemma includes_In (m : Direction) (l : list Direction) :
  includes m l = true <-> In m l.
Proof.
  unfold includes. rewrite existsb_exists. split.
  - intros [q [Hq E]]. apply Direction_eqb_eq in E. subst. exact Hq.
  - intros Hm. exists m. split; [exact Hm | apply Direction_eqb_eq; reflexivity].
Qed.

Lemma all_moves (m : Direction) : In m possibleMoves.
Proof. destruct m; simpl; auto. Qed.

(** ** The occupancy oracle *)

Lemma snake_split (l : list Pos) :
  l <> [] ->
  exists tail, nth_error l (List.length l - 1)%nat = Some tail /\
               l = firstn (List.length l - 1)%nat l ++ [tail].
Proof.
  intros Hl. destruct (exists_last Hl) as [body [tail ->]].
  exists tail. rewrite length_app. simpl.
  replace (List.length body + 1 - 1)%nat with (List.length body) by lia.
  split.
  - rewrite nth_error_app2 by lia. rewrite Nat.sub_diag. reflexivity.
  - rewrite firstn_app, Nat.sub_diag, firstn_all. simpl. rewrite app_nil_r.
    reflexivity.
Qed.

Lemma occupiedByPlayers_ok (ps : list Player) (pos : Pos) :
  Forall snakeOk ps -> occupiedByPlayers ps pos = Ok (onLivingSnake ps pos).
Proof.
  induction 1 as [| p ps Hp Hps IH]; simpl; [reflexivity |].
  destruct (isAlive p) eqn:Alive; simpl; [| exact IH].
  destruct (snake_split (snake p) (Hp Alive)) as [tail [Htail Hsplit]].
  rewrite Htail.
  assert (E : setHas pos (snake p) =
              existsb (fun seg => samePos seg pos)
                (firstn (List.length (snake p) - 1)%nat (snake p))
              || samePos tail pos).
  { rewrite Hsplit at 1. unfold setHas. rewrite existsb_app. simpl.
    rewrite orb_false_r, (samePos_sym pos tail). f_equal.
    generalize (firstn (List.length (snake p) - 1)%nat (snake p)).
    intros l. induction l as [| a l IHl]; simpl; [reflexivity |].
    rewrite IHl, (samePos_sym pos a). reflexivity. }
  rewrite E.
  destruct (existsb _ (firstn _ _)); simpl; [reflexivity |].
  destruct (samePos tail pos); simpl; [reflexivity | exact IH].
Qed.

Lemma isOccupied_ok (gs : GameState) (pos : Pos) (myId : string) :
  wellFormed gs -> isOccupied pos gs myId = Ok (blocked gs pos).
Proof.
  intros Hwf. unfold isOccupied, blocked.
  destruct (wallMode gs && outOfBounds pos); simpl; [reflexivity |].
  apply occupiedByPlayers_ok. exact Hwf.
Qed.

Lemma onLivingSnake_spec (ps : list Player) (pos : Pos) :
  onLivingSnake ps pos = true <->
  exists p, In p ps /\ isAlive p = true /\ In pos (snake p).
Proof.
  unfold onLivingSnake. rewrite existsb_exists. split.
  - intros [p [Hp E]]. apply andb_true_iff in E. destruct E as [E1 E2].
    exists p. rewrite <- setHas_In. auto.
  - intros [p [Hp [E1 E2]]]. exists p. split; [exact Hp |].
    rewrite E1. apply setHas_In in E2. rewrite E2. reflexivity.
Qed.

Lemma outOfBounds_spec (pos : Pos) :
  outOfBounds pos = true <->
  pos_x pos < 0 \/ GRID_WIDTH <= pos_x pos \/
  pos_y pos < 0 \/ GRID_HEIGHT <= pos_y pos.
Proof.
  unfold outOfBounds. rewrite !orb_true_iff, !Z.ltb_lt, !Z.geb_le. tauto.
Qed.

(** C7. The occupancy oracle answers "blocked" exactly when the grid is
    walled and the position is out of bounds, or a living player's snake
    has a segment (the tail included) on the position.  Stated for game
    states in which every living player has a non-empty snake; there the
    oracle always returns. *)
Theorem isOccupied_iff_wall_or_living_snake
  (gs : GameState) (pos : Pos) (myId : string) :
  wellFormed gs ->
  exists b, isOccupied pos gs myId = Ok b /\
    (b = true <->
       (wallMode gs = true /\
        (pos_x pos < 0 \/ GRID_WIDTH <= pos_x pos \/
         pos_y pos < 0 \/ GRID_HEIGHT <= pos_y pos)) \/
       (exists p, In p (players gs) /\ isAlive p = true /\ In pos (snake p))).
Proof.
  intros Hwf. exists (blocked gs pos). split.
  - apply isOccupied_ok. exact Hwf.
  - unfold blocked. rewrite orb_true_iff, andb_true_iff.
    rewrite outOfBounds_spec, onLivingSnake_spec. reflexivity.
Qed.

(** ** The grid graph of a game state *)

Section Search.

Variable gs : GameState.
Variable myId : string.
Hypothesis gs_wf : wellFormed gs.
Hypothesis width_pos : 0 < GRID_WIDTH.
Hypothesis height_pos : 0 < GRID_HEIGHT.

Lemma In_zrange (lo : Z) (n : nat) (z : Z) :
  In z (zrange lo n) <-> lo <= z < lo + Z.of_nat n.
Proof.
  unfold zrange. rewrite in_map_iff. split.
  - intros [i [<- Hi]]. apply in_seq in Hi. lia.
  - intros Hz. exists (Z.to_nat (z - lo)). split; [lia |].
    apply in_seq. lia.
Qed.

Lemma In_box (c : Pos) :
  In c box <->
  - GRID_WIDTH < pos_x c < GRID_WIDTH /\ - GRID_HEIGHT < pos_y c < GRID_HEIGHT.
Proof.
  unfold box. rewrite in_flat_map. split.
  - intros [x [Hx Hc]]. apply in_map_iff in Hc. destruct Hc as [y [<- Hy]].
    apply In_zrange in Hx. apply In_zrange in Hy. simpl. lia.
  - intros [Hx Hy]. exists (pos_x c). split.
    + apply In_zrange. lia.
    + apply in_map_iff. exists (pos_y c). split.
      * destruct c; reflexivity.
      * apply In_zrange. lia.
Qed.

Lemma length_box : (List.length box + 6 <= searchFuel)%nat.
Proof.
  unfold box, searchFuel.
  assert (L : forall (xs : list Z) (n : nat),
             List.length (flat_map (fun x => map (mkPos x)
               (zrange (1 - GRID_HEIGHT) n)) xs) = (List.length xs * n)%nat).
  { intros xs n. induction xs as [| a xs IH]; [reflexivity |].
    cbn [flat_map]. rewrite length_app, IH, length_map. unfold zrange.
    rewrite length_map, length_seq. reflexivity. }
  rewrite L. unfold zrange. rewrite length_map, length_seq. nia.
Qed.

Lemma free_in_box (c : Pos) (m : Direction) :
  blocked gs (next gs c m) = false -> In (next gs c m) box.
Proof.
  intros Hfree. apply In_box. unfold blocked in Hfree.
  apply orb_false_iff in Hfree. destruct Hfree as [Hwall _].
  unfold next, getNextCoord in *. destruct (wallMode gs); simpl in *.
  - destruct (outOfBounds _) eqn:E; [discriminate |].
    assert (N : ~ (outOfBounds
      {| pos_x := match m with
                  | Left => pos_x c - 1 | Right => pos_x c + 1 | _ => pos_x c
                  end;
         pos_y := match m with
                  | Up => pos_y c - 1 | Down => pos_y c + 1 | _ => pos_y c
                  end |} = true)) by congruence.
    rewrite outOfBounds_spec in N. simpl in N. lia.
  - split.
    + pose proof (Z.rem_bound_abs
        (match m with
         | Left => pos_x c - 1 | Right => pos_x c + 1 | _ => pos_x c
         end + GRID_WIDTH) GRID_WIDTH ltac:(lia)). lia.
    + pose proof (Z.rem_bound_abs
        (match m with
         | Up => pos_y c - 1 | Down => pos_y c + 1 | _ => pos_y c
         end + GRID_HEIGHT) GRID_HEIGHT ltac:(lia)). lia.
Qed.

Lemma unseen_add_le (c : Pos) (visited : list Pos) :
  (List.length (unseen (setAdd c visited)) <= List.length (unseen visited))%nat.
Proof.
  unfold unseen. induction box as [| a l IH]; simpl; [lia |].
  destruct (setHas a visited) eqn:E1; simpl.
  - assert (E2 : setHas a (setAdd c visited) = true).
    { apply setHas_In, setAdd_In. right. apply setHas_In. exact E1. }
    rewrite E2. simpl. exact IH.
  - destruct (setHas a (setAdd c visited)); simpl; lia.
Qed.

Lemma unseen_add_lt (c : Pos) (visited : list Pos) :
  In c box -> setHas c visited = false ->
  (List.length (unseen (setAdd c visited)) < List.length (unseen visited))%nat.
Proof.
  unfold unseen. intros Hin Hnot.
  induction box as [| a l IH]; simpl; [contradiction |].
  assert (Hle : (List.length (filter (fun c0 => negb (setHas c0 (setAdd c visited))) l)
                 <= List.length (filter (fun c0 => negb (setHas c0 visited)) l))%nat).
  { clear. induction l as [| b l IHl]; simpl; [lia |].
    destruct (setHas b visited) eqn:E1; simpl.
    - assert (E2 : setHas b (setAdd c visited) = true).
      { apply setHas_In, setAdd_In. right. apply setHas_In. exact E1. }
      rewrite E2. simpl. exact IHl.
    - destruct (setHas b (setAdd c visited)); simpl; lia. }
  destruct Hin as [-> | Hin].
  - rewrite Hnot. simpl.
    assert (E2 : setHas c (setAdd c visited) = true).
    { apply setHas_In, setAdd_In. left. reflexivity. }
    rewrite E2. simpl. lia.
  - specialize (IH Hin).
    destruct (setHas a visited) eqn:E1; simpl.
    + assert (E2 : setHas a (setAdd c visited) = true).
      { apply setHas_In, setAdd_In. right. apply setHas_In. exact E1. }
      rewrite E2. simpl. exact IH.
    + destruct (setHas a (setAdd c visited)); simpl; lia.
Qed.

Lemma unseen_le_box (visited : list Pos) :
  (List.length (unseen visited) <= List.length box)%nat.
Proof. unfold unseen. apply filter_length_le. Qed.

(** ** The reachable-space estimator *)

Lemma free_iff (c : Pos) :
  isOccupied c gs myId = Ok false <-> blocked gs c = false.
Proof.
  rewrite (isOccupied_ok gs c myId gs_wf). split; congruence.
Qed.

Lemma pushNeighbours_spec (cur : Pos) (ms : list Direction) :
  forall stack visited,
  exists new visited',
    forEach (pushNeighbour cur gs myId) ms (stack, visited)
      = Ok (new ++ stack, visited') /\
    NoDup new /\
    (forall c, In c new ->
       ~ In c visited /\ blocked gs c = false /\
       exists m, In m ms /\ c = next gs cur m) /\
    (forall c, In c visited' <-> In c new \/ In c visited) /\
    (forall m, In m ms -> blocked gs (next gs cur m) = false ->
               In (next gs cur m) visited') /\
    (List.length new + List.length (unseen visited')
       <= List.length (unseen visited))%nat.
Proof.
  induction ms as [| a ms IH]; intros stack visited.
  - exists [], visited. simpl.
    split; [reflexivity |]. split; [constructor |].
    split; [intros c [] |]. split; [intros c; tauto |].
    split; [intros m [] | lia].
  - cbn [forEach]. unfold pushNeighbour at 1. cbn [fst snd].
    fold (next gs cur a).
    assert (Keep :
      (blocked gs (next gs cur a) = false -> In (next gs cur a) visited) ->
      exists new visited',
        forEach (pushNeighbour cur gs myId) ms (stack, visited)
          = Ok (new ++ stack, visited') /\
        NoDup new /\
        (forall c, In c new ->
           ~ In c visited /\ blocked gs c = false /\
           exists m, In m (a :: ms) /\ c = next gs cur m) /\
        (forall c, In c visited' <-> In c new \/ In c visited) /\
        (forall m, In m (a :: ms) -> blocked gs (next gs cur m) = false ->
                   In (next gs cur m) visited') /\
        (List.length new + List.length (unseen visited')
           <= List.length (unseen visited))%nat).
    { intros Ha. destruct (IH stack visited)
        as [new [visited' [E [ND [Hnew [Hvis [Hcl Hlen]]]]]]].
      exists new, visited'.
      split; [exact E |]. split; [exact ND |]. split.
      { intros c Hc. destruct (Hnew c Hc) as [N [F [m [Hm ->]]]].
        split; [exact N |]. split; [exact F |]. exists m. simpl. auto. }
      split; [exact Hvis |]. split; [| exact Hlen].
      intros m [<- | Hm] Hfree.
      - apply Hvis. right. apply Ha. exact Hfree.
      - apply Hcl; assumption. }
    destruct (setHas (next gs cur a) visited) eqn:Seen.
    + cbn [bind]. apply Keep. intros _. apply setHas_In. exact Seen.
    + rewrite (isOccupied_ok gs (next gs cur a) myId gs_wf). cbn [bind].
      destruct (blocked gs (next gs cur a)) eqn:Hb; cbn [negb].
      * apply Keep. intros Hf. discriminate.
      * clear Keep.
        destruct (IH (next gs cur a :: stack) (setAdd (next gs cur a) visited))
          as [new [visited' [E [ND [Hnew [Hvis [Hcl Hlen]]]]]]].
        exists (new ++ [next gs cur a]), visited'.
        assert (Hfresh : ~ In (next gs cur a) visited)
          by (apply setHas_false; exact Seen).
        split; [rewrite <- app_assoc; exact E |].
        split.
        { apply NoDup_app; [exact ND | repeat constructor; simpl; tauto |].
          intros c Hc [Heq | []]. destruct (Hnew c Hc) as [N _].
          apply N, setAdd_In. left. symmetry. exact Heq. }
        split.
        { intros c Hc. apply in_app_or in Hc. destruct Hc as [Hc | [<- | []]].
          - destruct (Hnew c Hc) as [N [F [m [Hm ->]]]].
            split; [| split; [exact F | exists m; simpl; auto]].
            intros Hin. apply N, setAdd_In. right. exact Hin.
          - split; [exact Hfresh |]. split; [exact Hb |].
            exists a. simpl. auto. }
        split.
        { intros c. rewrite Hvis, setAdd_In, in_app_iff. simpl.
          split; intros H;
            [destruct H as [H | [-> | H]] | destruct H as [[H | [<- | []]] | H]];
            auto. }
        split.
        { intros m [<- | Hm] Hfree.
          - apply Hvis. right. apply setAdd_In. left. reflexivity.
          - apply Hcl; assumption. }
        { pose proof (unseen_add_lt (next gs cur a) visited
                        (free_in_box cur a Hb) Seen).
          rewrite length_app. simpl. lia. }
Qed.

Lemma floodLoopIn_correct (moves : list Direction) (start : Pos) :
  (forall m, In m moves) ->
  forall (n : nat) (stack visited done : list Pos),
    FloodInv gs myId start stack visited done ->
    (List.length stack + List.length (unseen visited) < n)%nat ->
    exists cells,
      NoDup cells /\
      (forall c, In c cells <-> Reachable gs myId start c) /\
      forall (fuel : nat) (limit : Z),
        (n <= fuel)%nat ->
        Z.of_nat (List.length done) < limit ->
        floodLoopIn moves fuel gs myId limit stack visited
          (Z.of_nat (List.length done))
          = Ok (Z.min limit (Z.of_nat (List.length cells))).
Proof.
  intros Hall.
  induction n as [| n IH]; intros stack visited done Inv Hn; [lia |].
  destruct stack as [| cur rest].
  - exists done. destruct Inv as [ND Hvis Hreach Hclosed Hstart].
    simpl in ND, Hvis. split; [exact ND |]. split.
    + intros c. split.
      * intros Hc. apply Hreach, Hvis. exact Hc.
      * intros R. induction R as [| c m R IHR F].
        -- apply Hvis. exact Hstart.
        -- apply Hvis. apply Hclosed; [exact IHR | apply free_iff; exact F].
    + intros fuel limit Hfuel Hlim. destruct fuel as [| fuel]; [lia |].
      simpl. f_equal. lia.
  - destruct (pushNeighbours_spec cur moves rest visited)
      as [new [visited' [E [NDnew [Hnew [Hvis' [Hcl Hlen]]]]]]].
    destruct Inv as [ND Hvis Hreach Hclosed Hstart].
    assert (Inv' : FloodInv gs myId start (new ++ rest) visited' (cur :: done)).
    { constructor.
      - rewrite <- app_assoc.
        apply NoDup_app; [exact NDnew | |].
        + apply (Permutation_NoDup (l := cur :: rest ++ done));
            [apply Permutation_middle | exact ND].
        + intros c Hc Hin. destruct (Hnew c Hc) as [N _]. apply N, Hvis.
          apply in_app_or in Hin. destruct Hin as [Hin | [<- | Hin]].
          * right. apply in_or_app. left. exact Hin.
          * left. reflexivity.
          * right. apply in_or_app. right. exact Hin.
      - intros c. rewrite Hvis', Hvis. simpl. rewrite !in_app_iff. simpl. tauto.
      - intros c Hc. apply Hvis' in Hc. destruct Hc as [Hc | Hc].
        + destruct (Hnew c Hc) as [_ [F [m [_ ->]]]].
          apply reach_step; [| apply free_iff; exact F].
          apply Hreach, Hvis. left. reflexivity.
        + apply Hreach. exact Hc.
      - intros c m [<- | Hc] F.
        + apply Hcl; [apply Hall | exact F].
        + apply Hvis'. right. apply Hclosed with (c := c); assumption.
      - apply Hvis'. right. exact Hstart. }
    assert (Hn' : (List.length (new ++ rest)
                   + List.length (unseen visited') < n)%nat).
    { rewrite length_app. simpl in Hn. lia. }
    destruct (IH _ _ _ Inv' Hn') as [cells [NDc [Hcells Hrun]]].
    exists cells. split; [exact NDc |]. split; [exact Hcells |].
    intros fuel limit Hfuel Hlim. destruct fuel as [| fuel]; [lia |].
    cbn [floodLoopIn].
    assert (Hcard : (List.length (cur :: done) <= List.length cells)%nat).
    { apply NoDup_incl_length.
      - apply (NoDup_app_remove_l (new ++ rest)). exact (fi_nodup _ _ _ _ _ _ Inv').
      - intros c Hc. apply Hcells. apply (fi_reach _ _ _ _ _ _ Inv').
        apply (fi_visited _ _ _ _ _ _ Inv'). apply in_or_app. right. exact Hc. }
    destruct (Z.of_nat (List.length done) + 1 >=? limit) eqn:Cut.
    + f_equal. apply Z.geb_le in Cut. simpl in Hcard. lia.
    + rewrite E. cbn [bind].
      replace (Z.of_nat (List.length done) + 1)
        with (Z.of_nat (List.length (cur :: done))) by (simpl; lia).
      apply Hrun; [lia |].
      assert (~ (limit <= Z.of_nat (List.length done) + 1)).
      { rewrite <- Z.geb_le. congruence. }
      simpl. lia.
Qed.

Lemma floodLoopIn_possibleMoves (fuel : nat) :
  forall limit stack visited count,
    floodLoopIn possibleMoves fuel gs myId limit stack visited count
    = floodLoop fuel gs myId limit stack visited count.
Proof.
  induction fuel as [| fuel IH]; intros limit stack visited count;
    cbn [floodLoopIn floodLoop]; [reflexivity |].
  destruct stack as [| cur rest]; [reflexivity |].
  destruct (count + 1 >=? limit); [reflexivity |].
  destruct (forEach (pushNeighbour cur gs myId) possibleMoves (rest, visited))
    as [[stack' visited'] | e]; cbn [bind]; [apply IH | reflexivity].
Qed.

Lemma countAccessibleTilesIn_spec (moves : list Direction) (startPos : Pos) :
  (forall m, In m moves) ->
  (exists cells, NoDup cells /\
     forall c, In c cells <-> Reachable gs myId startPos c) /\
  (forall (cells : list Pos) (limit : Z),
     NoDup cells ->
     (forall c, In c cells <-> Reachable gs myId startPos c) ->
     0 < limit ->
     countAccessibleTilesIn moves startPos gs myId limit
       = Ok (Z.min limit (Z.of_nat (List.length cells)))).
Proof.
  intros Hall.
  assert (Inv : FloodInv gs myId startPos [startPos] (setAdd startPos []) []).
  { constructor; simpl.
    - repeat constructor. simpl. tauto.
    - intros c. unfold setAdd. simpl. tauto.
    - intros c [<- | []]. constructor.
    - intros c m [].
    - left. reflexivity. }
  assert (Hn : (List.length [startPos]
                + List.length (unseen (setAdd startPos [])) < searchFuel)%nat).
  { pose proof (unseen_le_box (setAdd startPos [])). pose proof length_box.
    simpl. lia. }
  destruct (floodLoopIn_correct moves startPos Hall _ _ _ _ Inv Hn)
    as [cells [ND [Hcells Hrun]]].
  split; [exists cells; auto |].
  intros cells' limit ND' Hcells' Hlim.
  unfold countAccessibleTilesIn.
  change 0 with (Z.of_nat (List.length (@nil Pos))).
  rewrite (Hrun searchFuel limit (Nat.le_refl _)) by (simpl; lia).
  do 2 f_equal. f_equal. apply Permutation_length.
  apply NoDup_Permutation; [exact ND | exact ND' |].
  intros c. rewrite Hcells, Hcells'. reflexivity.
Qed.

Lemma countAccessibleTiles_spec (startPos : Pos) :
  (exists cells, NoDup cells /\
     forall c, In c cells <-> Reachable gs myId startPos c) /\
  (forall (cells : list Pos) (limit : Z),
     NoDup cells ->
     (forall c, In c cells <-> Reachable gs myId startPos c) ->
     0 < limit ->
     countAccessibleTiles startPos gs myId limit
       = Ok (Z.min limit (Z.of_nat (List.length cells)))).
Proof.
  destruct (countAccessibleTilesIn_spec possibleMoves startPos all_moves)
    as [Hex Hrun].
  split; [exact Hex |].
  intros cells limit ND Hcells Hlim. unfold countAccessibleTiles.
  rewrite <- floodLoopIn_possibleMoves. apply Hrun; assumption.
Qed.

(** C4. The cells reachable from the start form a finite set, and for every
    duplicate-free enumeration [cells] of that set and every positive limit
    the estimator returns the smaller of the limit and the number of cells:
    it never exceeds the limit and is exact below it.  The same value comes
    out when the four directions are tried in any other order. *)
Theorem countAccessibleTiles_is_min_of_limit_and_reachable (startPos : Pos) :
  (exists cells, NoDup cells /\
     forall c, In c cells <-> Reachable gs myId startPos c) /\
  (forall (cells : list Pos) (limit : Z),
     NoDup cells ->
     (forall c, In c cells <-> Reachable gs myId startPos c) ->
     0 < limit ->
     countAccessibleTiles startPos gs myId limit
       = Ok (Z.min limit (Z.of_nat (List.length cells))) /\
     forall moves, Permutation possibleMoves moves ->
       countAccessibleTilesIn moves startPos gs myId limit
       = countAccessibleTiles startPos gs myId limit).
Proof.
  destruct (countAccessibleTiles_spec startPos) as [Hex Hrun].
  split; [exact Hex |].
  intros cells limit ND Hcells Hlim.
  rewrite (Hrun cells limit ND Hcells Hlim). split; [reflexivity |].
  intros moves Hperm.
  apply (countAccessibleTilesIn_spec moves startPos); try assumption.
  intros m. apply (Permutation_in m Hperm). apply all_moves.
Qed.

(** ** The pathfinder *)

Lemma isFood_In (p : Pos) : isFood gs p = true <-> In p (food gs).
Proof.
  unfold isFood. rewrite existsb_exists. split.
  - intros [f [Hf E]]. apply samePos_eq in E. subst. exact Hf.
  - intros Hp. exists p. split; [exact Hp | apply samePos_refl].
Qed.

Lemma rank_bounds (d : Direction) : 0 <= rank d <= 3.
Proof. destruct d; simpl; lia. Qed.

Lemma Route_dist_pos (start : Pos) (fm : Direction) (d : Z) (c : Pos) :
  Route gs myId start fm d c -> 1 <= d.
Proof. induction 1; lia. Qed.

Lemma StronglySorted_app {A : Type} (R : A -> A -> Prop) (l1 l2 : list A) :
  StronglySorted R l1 -> StronglySorted R l2 ->
  (forall a b, In a l1 -> In b l2 -> R a b) ->
  StronglySorted R (l1 ++ l2).
Proof.
  intros S1 S2 H. induction S1 as [| a l S1 IH Ha]; simpl; [exact S2 |].
  constructor.
  - apply IH. intros x y Hx Hy. apply H; simpl; auto.
  - apply Forall_app. split; [exact Ha |].
    apply Forall_forall. intros b Hb. apply H; simpl; auto.
Qed.

Lemma enqueueNeighbours_spec (h : QEntry) (ms : list Direction) :
  forall queue visited,
  exists new visited',
    forEach (enqueueNeighbour h gs myId) ms (queue, visited)
      = Ok (queue ++ new, visited') /\
    (forall e, In e new ->
       blocked gs (q_pos e) = false /\
       exists m, e = mkEntry (next gs (q_pos h) m) (q_firstMove h) (q_dist h + 1)) /\
    (forall c, In c visited' <->
       In c visited \/ exists e, In e new /\ q_pos e = c) /\
    (forall m, In m ms -> blocked gs (next gs (q_pos h) m) = false ->
               In (next gs (q_pos h) m) visited') /\
    (List.length new + List.length (unseen visited')
       <= List.length (unseen visited))%nat.
Proof.
  induction ms as [| a ms IH]; intros queue visited.
  - exists [], visited. simpl. rewrite app_nil_r.
    split; [reflexivity |]. split; [intros e [] |].
    split; [| split; [intros m [] | lia]].
    intros c. split; [auto | intros [H | [e [[] _]]]; exact H].
  - cbn [forEach]. unfold enqueueNeighbour at 1. cbn [fst snd].
    fold (next gs (q_pos h) a).
    assert (Keep :
      (blocked gs (next gs (q_pos h) a) = false ->
       In (next gs (q_pos h) a) visited) ->
      exists new visited',
        forEach (enqueueNeighbour h gs myId) ms (queue, visited)
          = Ok (queue ++ new, visited') /\
        (forall e, In e new ->
           blocked gs (q_pos e) = false /\
           exists m, e = mkEntry (next gs (q_pos h) m) (q_firstMove h)
                           (q_dist h + 1)) /\
        (forall c, In c visited' <->
           In c visited \/ exists e, In e new /\ q_pos e = c) /\
        (forall m, In m (a :: ms) -> blocked gs (next gs (q_pos h) m) = false ->
                   In (next gs (q_pos h) m) visited') /\
        (List.length new + List.length (unseen visited')
           <= List.length (unseen visited))%nat).
    { intros Ha. destruct (IH queue visited)
        as [new [visited' [E [Hnew [Hvis [Hcl Hlen]]]]]].
      exists new, visited'.
      split; [exact E |]. split; [exact Hnew |]. split; [exact Hvis |].
      split; [| exact Hlen].
      intros m [<- | Hm] Hfree.
      - apply Hvis. left. apply Ha. exact Hfree.
      - apply Hcl; assumption. }
    destruct (setHas (next gs (q_pos h) a) visited) eqn:Seen.
    + cbn [bind]. apply Keep. intros _. apply setHas_In. exact Seen.
    + rewrite (isOccupied_ok gs (next gs (q_pos h) a) myId gs_wf). cbn [bind].
      destruct (blocked gs (next gs (q_pos h) a)) eqn:Hb; cbn [negb].
      * apply Keep. intros Hf. discriminate.
      * clear Keep.
        set (e1 := mkEntry (next gs (q_pos h) a) (q_firstMove h) (q_dist h + 1)).
        destruct (IH (queue ++ [e1]) (setAdd (next gs (q_pos h) a) visited))
          as [new [visited' [E [Hnew [Hvis [Hcl Hlen]]]]]].
        exists (e1 :: new), visited'.
        split; [rewrite <- app_assoc in E; exact E |].
        split.
        { intros e [<- | He]; [| apply Hnew; exact He].
          split; [exact Hb | exists a; reflexivity]. }
        split.
        { intros c. rewrite Hvis, setAdd_In. simpl. split.
          - intros [[-> | H] | [e [He Hc]]].
            + right. exists e1. auto.
            + left. exact H.
            + right. exists e. auto.
          - intros [H | [e [[<- | He] Hc]]].
            + left. right. exact H.
            + left. left. symmetry. exact Hc.
            + right. exists e. auto. }
        split.
        { intros m [<- | Hm] Hfree.
          - apply Hvis. left. apply setAdd_In. left. reflexivity.
          - apply Hcl; assumption. }
        { pose proof (unseen_add_lt (next gs (q_pos h) a) visited
                        (free_in_box (q_pos h) a Hb) Seen).
          simpl. lia. }
Qed.

Lemma seedNeighbours_spec (start : Pos) (ms : list Direction) :
  forall queue visited,
  exists visited',
    forEach (seedNeighbour start gs myId) ms (queue, visited)
      = Ok (queue ++ seeds gs start ms, visited') /\
    (forall c, In c visited' <->
       In c visited \/ exists e, In e (seeds gs start ms) /\ q_pos e = c) /\
    (List.length (unseen visited') <= List.length (unseen visited))%nat.
Proof.
  induction ms as [| a ms IH]; intros queue visited.
  - exists visited. simpl. rewrite app_nil_r.
    split; [reflexivity |]. split; [| lia].
    intros c. split; [auto | intros [H | [e [[] _]]]; exact H].
  - cbn [forEach]. unfold seedNeighbour at 1. cbn [fst snd].
    fold (next gs start a).
    rewrite (isOccupied_ok gs (next gs start a) myId gs_wf). cbn [bind].
    unfold seeds. cbn [filter].
    destruct (blocked gs (next gs start a)) eqn:Hb; cbn [negb].
    + apply IH.
    + destruct (IH (queue ++ [mkEntry (next gs start a) a 1])
                   (setAdd (next gs start a) visited))
        as [visited' [E [Hvis Hlen]]].
      exists visited'. cbn [map].
      split; [rewrite <- app_assoc in E; exact E |].
      split.
      * intros c. rewrite Hvis, setAdd_In. fold (seeds gs start ms). simpl. split.
        -- intros [[-> | H] | [e [He Hc]]].
           ++ right. eexists. split; [left; reflexivity | reflexivity].
           ++ left. exact H.
           ++ right. exists e. auto.
        -- intros [H | [e [[<- | He] Hc]]].
           ++ left. right. exact H.
           ++ left. left. symmetry. exact Hc.
           ++ right. exists e. auto.
      * pose proof (unseen_add_le (next gs start a) visited). lia.
Qed.

Lemma frontier (start : Pos) (queue : list QEntry) (visited : list Pos)
  (deq : list QEntry) :
  BfsInv gs myId start queue visited deq ->
  forall fm d p, Route gs myId start fm d p -> d <= depthCap + 1 ->
  exists e, In e (queue ++ deq) /\ key e <= 4 * d + rank fm /\
            (q_pos e = p \/ In e queue).
Proof.
  intros Inv fm d p R. induction R as [m F | fm d c m R IH F]; intros Hd.
  - apply free_iff in F.
    destruct (bi_seeds _ _ _ _ _ _ Inv m F) as [e [He [Hp Hk]]].
    exists e. split; [exact He |]. split; [lia | left; exact Hp].
  - apply free_iff in F.
    destruct (IH ltac:(lia)) as [e [He [Hk Hwhere]]].
    assert (Hq : In e queue \/ (In e deq /\ q_pos e = c)).
    { destruct Hwhere as [Hp | Hq]; [| left; exact Hq].
      apply in_app_or in He. destruct He as [He | He]; auto. }
    destruct Hq as [Hq | [Hdeq Hp]].
    + exists e. split; [exact He |]. split; [lia | right; exact Hq].
    + pose proof (rank_bounds (q_firstMove e)) as B1.
      pose proof (rank_bounds fm) as B2. unfold key in Hk.
      subst c.
      destruct (bi_closed _ _ _ _ _ _ Inv e m Hdeq ltac:(lia) F)
        as [e' [He' [Hp' Hk']]].
      exists e'. split; [exact He' |]. unfold key in *.
      split; [lia | left; exact Hp'].
Qed.

Lemma BfsInv_skip (start : Pos) (h : QEntry) (rest : list QEntry)
  (visited : list Pos) (deq : list QEntry) :
  BfsInv gs myId start (h :: rest) visited deq ->
  isFood gs (q_pos h) = false ->
  depthCap < q_dist h ->
  BfsInv gs myId start rest visited (h :: deq).
Proof.
  intros [Hroute Hvis Hsorted Hbefore Hspread Hnofood Hclosed Hseeds] Hf Hd.
  assert (Mem : forall e, In e (rest ++ h :: deq) <-> In e ((h :: rest) ++ deq)).
  { intros e. rewrite !in_app_iff. simpl. tauto. }
  inversion Hsorted as [| ? ? Srest Hhead]; subst.
  rewrite Forall_forall in Hhead.
  constructor.
  - intros e He. apply Hroute, Mem, He.
  - intros c. rewrite Hvis. split; intros [e [He Hc]]; exists e;
      (split; [apply Mem; exact He | exact Hc]).
  - exact Srest.
  - intros e e' [<- | He] He'.
    + apply Hhead. exact He'.
    + apply Hbefore; [exact He | right; exact He'].
  - intros e e' He He'. apply Hspread; right; assumption.
  - intros e [<- | He]; [exact Hf | apply Hnofood; exact He].
  - intros e m [<- | He] Hde F; [lia |].
    destruct (Hclosed e m He Hde F) as [e' [He' R]].
    exists e'. split; [apply Mem; exact He' | exact R].
  - intros m F. destruct (Hseeds m F) as [e' [He' R]].
    exists e'. split; [apply Mem; exact He' | exact R].
Qed.

Lemma BfsInv_expand (start : Pos) (h : QEntry) (rest new : list QEntry)
  (visited visited' : list Pos) (deq : list QEntry) :
  BfsInv gs myId start (h :: rest) visited deq ->
  isFood gs (q_pos h) = false ->
  q_dist h <= depthCap ->
  (forall e, In e new ->
     blocked gs (q_pos e) = false /\
     exists m, e = mkEntry (next gs (q_pos h) m) (q_firstMove h) (q_dist h + 1)) ->
  (forall c, In c visited' <->
     In c visited \/ exists e, In e new /\ q_pos e = c) ->
  (forall m, In m possibleMoves -> blocked gs (next gs (q_pos h) m) = false ->
             In (next gs (q_pos h) m) visited') ->
  BfsInv gs myId start (rest ++ new) visited' (h :: deq).
Proof.
  intros [Hroute Hvis Hsorted Hbefore Hspread Hnofood Hclosed Hseeds]
    Hf Hd Hnew Hvis' Hcl.
  assert (Mem : forall e, In e ((rest ++ new) ++ h :: deq) <->
                          In e new \/ In e ((h :: rest) ++ deq)).
  { intros e. rewrite !in_app_iff. simpl. tauto. }
  assert (Knew : forall e, In e new -> key e = key h + 4).
  { intros e He. destruct (Hnew e He) as [_ [m ->]]. unfold key. cbn [q_dist q_firstMove]. lia. }
  inversion Hsorted as [| ? ? Srest Hhead]; subst.
  rewrite Forall_forall in Hhead.
  assert (Krest : forall e, In e rest -> key h <= key e <= key h + 4).
  { intros e He. split; [apply Hhead; exact He |].
    apply Hspread; simpl; auto. }
  assert (Kdeq : forall e, In e deq -> key e <= key h).
  { intros e He. apply Hbefore; simpl; auto. }
  constructor.
  - intros e He. apply Mem in He. destruct He as [He | He].
    + destruct (Hnew e He) as [F [m ->]]. cbn [q_dist q_firstMove q_pos] in *.
      destruct (Hroute h ltac:(simpl; auto)) as [R _].
      split; [| lia].
      apply route_step; [exact R | apply free_iff; exact F].
    + apply Hroute. exact He.
  - intros c. rewrite Hvis', Hvis. split.
    + intros [[e [He Hc]] | [e [He Hc]]]; exists e;
        (split; [apply Mem; auto | exact Hc]).
    + intros [e [He Hc]]. apply Mem in He. destruct He as [He | He].
      * right. exists e. auto.
      * left. exists e. auto.
  - apply StronglySorted_app; [exact Srest | |].
    + assert (Same : forall a b, In a new -> In b new -> key a <= key b).
      { intros a b Ha Hb. rewrite (Knew a Ha), (Knew b Hb). lia. }
      clear - Same. induction new as [| a l IHl]; constructor.
      * apply IHl. intros x y Hx Hy. apply Same; simpl; auto.
      * apply Forall_forall. intros b Hb. apply Same; simpl; auto.
    + intros a b Ha Hb. rewrite (Knew b Hb). apply Krest. exact Ha.
  - intros e e' He He'. apply in_app_or in He'.
    assert (key e <= key h) by (destruct He as [<- | He]; [lia | auto]).
    destruct He' as [He' | He'].
    + pose proof (Krest e' He'). lia.
    + rewrite (Knew e' He'). lia.
  - intros e e' He He'. apply in_app_or in He. apply in_app_or in He'.
    destruct He as [He | He]; destruct He' as [He' | He'].
    + apply Hspread; simpl; auto.
    + pose proof (Krest e He). rewrite (Knew e' He'). lia.
    + pose proof (Krest e' He'). rewrite (Knew e He). lia.
    + rewrite (Knew e He), (Knew e' He'). lia.
  - intros e [<- | He]; [exact Hf | apply Hnofood; exact He].
  - intros e m [<- | He] Hde F.
    + specialize (Hcl m (all_moves m) F). apply Hvis' in Hcl.
      assert (Hex : exists e', In e' ((rest ++ new) ++ h :: deq) /\
                               q_pos e' = next gs (q_pos h) m).
      { destruct Hcl as [Hc | [e' [He' Hc]]].
        - apply Hvis in Hc. destruct Hc as [e' [He' Hc]].
          exists e'. split; [apply Mem; auto | exact Hc].
        - exists e'. split; [apply Mem; auto | exact Hc]. }
      destruct Hex as [e' [He' Hp]]. exists e'.
      split; [exact He' |]. split; [exact Hp |].
      apply Mem in He'. destruct He' as [He' | He'].
      * rewrite (Knew e' He'). lia.
      * apply in_app_or in He'. destruct He' as [[<- | He'] | He'].
        -- lia.
        -- pose proof (Krest e' He'). lia.
        -- pose proof (Kdeq e' He'). lia.
    + destruct (Hclosed e m He Hde F) as [e' [He' R]].
      exists e'. split; [apply Mem; auto | exact R].
  - intros m F. destruct (Hseeds m F) as [e' [He' R]].
    exists e'. split; [apply Mem; auto | exact R].
Qed.

Lemma bfsLoop_correct (start : Pos) :
  forall (n : nat) (queue : list QEntry) (visited : list Pos)
         (deq : list QEntry),
    BfsInv gs myId start queue visited deq ->
    (List.length queue + List.length (unseen visited) < n)%nat ->
    forall fuel, (n <= fuel)%nat ->
    BfsOutcome gs myId start (bfsLoop fuel gs myId queue visited).
Proof.
  induction n as [| n IH]; intros queue visited deq Inv Hn fuel Hfuel; [lia |].
  destruct fuel as [| fuel]; [lia |].
  destruct queue as [| h rest]; cbn [bfsLoop].
  - unfold BfsOutcome. intros fm' d' p' R Hfood.
    destruct (Z_lt_le_dec (depthCap + 1) d') as [Hlt | Hle]; [exact Hlt |].
    destruct (frontier _ _ _ _ Inv fm' d' p' R Hle) as [e [He [_ [Hp | []]]]].
    simpl in He. subst p'.
    rewrite (bi_nofood _ _ _ _ _ _ Inv e He) in Hfood. discriminate.
  - fold (isFood gs (q_pos h)). destruct (isFood gs (q_pos h)) eqn:Hfood.
    + unfold BfsOutcome. split; [| split].
      * apply (bi_route _ _ _ _ _ _ Inv). simpl. auto.
      * exists (q_pos h). split; [| exact Hfood].
        apply (bi_route _ _ _ _ _ _ Inv). simpl. auto.
      * intros fm' d' p' R Hfood'.
        destruct (bi_route _ _ _ _ _ _ Inv h ltac:(simpl; auto)) as [_ Hcap].
        pose proof (rank_bounds (q_firstMove h)) as B1.
        pose proof (rank_bounds fm') as B2.
        destruct (Z_lt_le_dec (depthCap + 1) d') as [Hlt | Hle]; [lia |].
        destruct (frontier _ _ _ _ Inv fm' d' p' R Hle) as [e [He [Hk Hwhere]]].
        assert (Hq : In e (h :: rest)).
        { destruct Hwhere as [Hp | Hq]; [| exact Hq].
          apply in_app_or in He. destruct He as [He | He]; [exact He |].
          subst p'. rewrite (bi_nofood _ _ _ _ _ _ Inv e He) in Hfood'.
          discriminate. }
        assert (key h <= key e).
        { destruct Hq as [<- | Hq]; [lia |].
          pose proof (bi_sorted _ _ _ _ _ _ Inv) as Hs.
          inversion Hs as [| ? ? _ Hhead]; subst.
          rewrite Forall_forall in Hhead. apply Hhead. exact Hq. }
        unfold key in *. lia.
    + destruct (q_dist h >? depthCap) eqn:Hdeep.
      * apply (IH rest visited (h :: deq)).
        -- apply BfsInv_skip; [exact Inv | exact Hfood |].
           apply Z.gtb_lt in Hdeep. exact Hdeep.
        -- simpl in Hn. lia.
        -- lia.
      * destruct (enqueueNeighbours_spec h possibleMoves rest visited)
          as [new [visited' [E [Hnew [Hvis [Hcl Hlen]]]]]].
        rewrite E. cbn [bind].
        apply (IH (rest ++ new) visited' (h :: deq)).
        -- apply BfsInv_expand with (visited := visited); auto.
           assert (~ (depthCap < q_dist h)).
           { rewrite <- Z.gtb_lt. congruence. }
           lia.
        -- rewrite length_app. simpl in Hn. lia.
        -- lia.
Qed.

Lemma seeds_sorted (start : Pos) :
  StronglySorted (fun a b => key a <= key b) (seeds gs start possibleMoves).
Proof.
  unfold seeds, possibleMoves. cbn [filter].
  destruct (blocked gs (next gs start Up)), (blocked gs (next gs start Down)),
    (blocked gs (next gs start Left)), (blocked gs (next gs start Right));
    cbn [negb map];
    repeat (constructor; try (unfold key; cbn [q_dist q_firstMove rank]; lia)).
Qed.

Lemma findPath_outcome (startPos : Pos) :
  BfsOutcome gs myId startPos (findPathToClosestFood startPos gs myId).
Proof.
  unfold findPathToClosestFood.
  destruct (seedNeighbours_spec startPos possibleMoves [] [])
    as [visited [E [Hvis Hlen]]].
  rewrite E. cbn [bind app].
  assert (Hseed : forall e, In e (seeds gs startPos possibleMoves) ->
            exists m, e = mkEntry (next gs startPos m) m 1 /\
                      blocked gs (next gs startPos m) = false).
  { intros e He. unfold seeds in He. apply in_map_iff in He.
    destruct He as [m [<- Hm]]. apply filter_In in Hm. destruct Hm as [_ Hm].
    exists m. split; [reflexivity |].
    destruct (blocked gs (next gs startPos m)); [discriminate | reflexivity]. }
  apply (bfsLoop_correct startPos searchFuel _ _ []).
  - constructor.
    + intros e He. rewrite app_nil_r in He.
      destruct (Hseed e He) as [m [-> F]]. simpl. split.
      * apply route_first. apply free_iff. exact F.
      * unfold depthCap. lia.
    + intros c. rewrite Hvis, app_nil_r. simpl. tauto.
    + apply seeds_sorted.
    + intros e e' [].
    + intros e e' He He'.
      destruct (Hseed e He) as [m [-> _]].
      destruct (Hseed e' He') as [m' [-> _]].
      pose proof (rank_bounds m). pose proof (rank_bounds m').
      unfold key. cbn [q_dist q_firstMove]. lia.
    + intros e [].
    + intros e m [].
    + intros m F. exists (mkEntry (next gs startPos m) m 1).
      rewrite app_nil_r. split; [| split; [reflexivity | unfold key; cbn [q_dist q_firstMove rank]; lia]].
      unfold seeds. apply in_map_iff. exists m. split; [reflexivity |].
      apply filter_In. split; [apply all_moves | rewrite F; reflexivity].
  - assert (List.length (seeds gs startPos possibleMoves) <= 4)%nat.
    { unfold seeds. rewrite length_map.
      etransitivity; [apply filter_length_le | simpl; lia]. }
    pose proof (unseen_le_box visited). pose proof length_box. lia.
  - lia.
Qed.

(** C3. When some food cell is the end of a route of at most [depthCap]
    steps, the pathfinder returns a pair (firstMove, dist) such that a route
    of [dist] steps starting with [firstMove] ends on food, no route to food
    is shorter, and among the routes of that least length none starts with a
    direction that comes earlier in the order up, down, left, right. *)
Theorem findPathToClosestFood_shortest_first_discovered (startPos : Pos) :
  (exists fm d p, Route gs myId startPos fm d p /\ In p (food gs) /\ d <= depthCap) ->
  exists firstMove dist,
    findPathToClosestFood startPos gs myId = Ok (Some (firstMove, dist)) /\
    (exists p, Route gs myId startPos firstMove dist p /\ In p (food gs)) /\
    (forall fm' d' p', Route gs myId startPos fm' d' p' -> In p' (food gs) ->
       dist <= d' /\ (d' = dist -> rank firstMove <= rank fm')).
Proof.
  intros [fm [d [p [R [Hfood Hd]]]]].
  pose proof (findPath_outcome startPos) as Out.
  destruct (findPathToClosestFood startPos gs myId) as [[[firstMove dist] |] | e];
    unfold BfsOutcome in Out.
  - exists firstMove, dist. split; [reflexivity |].
    destruct Out as [_ [[q [Rq Fq]] Hmin]]. split.
    + exists q. split; [exact Rq | apply isFood_In; exact Fq].
    + intros fm' d' p' R' F'. apply isFood_In in F'.
      pose proof (Hmin fm' d' p' R' F').
      pose proof (rank_bounds firstMove). pose proof (rank_bounds fm'). lia.
  - apply isFood_In in Hfood. pose proof (Out fm d p R Hfood). lia.
  - contradiction.
Qed.

(** C5, as the code has it: when every route to a food cell is longer than
    [depthCap + 1] steps, the pathfinder returns "no path". *)
Theorem findPathToClosestFood_none_beyond_cap (startPos : Pos) :
  (forall fm d p, Route gs myId startPos fm d p -> In p (food gs) -> depthCap + 1 < d) ->
  findPathToClosestFood startPos gs myId = Ok None.
Proof.
  intros Far.
  pose proof (findPath_outcome startPos) as Out.
  destruct (findPathToClosestFood startPos gs myId) as [[[firstMove dist] |] | e];
    unfold BfsOutcome in Out.
  - destruct Out as [Hcap [[q [Rq Fq]] _]]. apply isFood_In in Fq.
    pose proof (Far firstMove dist q Rq Fq) as Hfar.
    lia.
  - reflexivity.
  - contradiction.
Qed.

Lemma walk_app (start : Pos) (l1 l2 : list Direction) :
  walk gs myId start (l1 ++ l2)
  = match walk gs myId start l1 with
    | Some c => walk gs myId c l2
    | None => None
    end.
Proof.
  revert start. induction l1 as [| m l1 IH]; intros start; simpl;
    [reflexivity |].
  destruct (isOccupied (next gs start m) gs myId) as [[|] | e];
    [reflexivity | apply IH | reflexivity].
Qed.

(** Routes are exactly the non-empty lists of moves that can be walked. *)
Lemma Route_iff_walk (start : Pos) (fm : Direction) (d : Z) (p : Pos) :
  Route gs myId start fm d p <->
  exists ms, walk gs myId start (fm :: ms) = Some p /\
             d = Z.of_nat (S (List.length ms)).
Proof.
  split.
  - intros R. induction R as [m F | fm d c m R [ms [Hw Hd]] F].
    + exists []. simpl. rewrite F. split; reflexivity.
    + exists (ms ++ [m]). split.
      * change (fm :: ms ++ [m]) with ((fm :: ms) ++ [m]).
        rewrite walk_app, Hw. simpl. rewrite F. reflexivity.
      * rewrite length_app. simpl. lia.
  - intros [ms [Hw Hd]]. subst d. revert p Hw.
    induction ms as [| m ms IH] using rev_ind; intros p Hw.
    + simpl in Hw.
      destruct (isOccupied (next gs start fm) gs myId) as [[|] | e] eqn:F;
        try discriminate.
      inversion Hw. subst. apply route_first. exact F.
    + change (fm :: ms ++ [m]) with ((fm :: ms) ++ [m]) in Hw.
      rewrite walk_app in Hw.
      destruct (walk gs myId start (fm :: ms)) as [c |] eqn:Hc;
        [| discriminate].
      simpl in Hw.
      destruct (isOccupied (next gs c m) gs myId) as [[|] | e] eqn:F;
        try discriminate.
      inversion Hw. subst.
      replace (Z.of_nat (S (List.length (ms ++ [m]))))
        with (Z.of_nat (S (List.length ms)) + 1)
        by (rewrite length_app; simpl; lia).
      apply route_step; [apply IH; reflexivity | exact F].
Qed.

(** On a walled grid a route of [d] steps ends within Manhattan distance
    [d] of its start. *)
Lemma Route_manhattan (start : Pos) (fm : Direction) (d : Z) (p : Pos) :
  wallMode gs = true ->
  Route gs myId start fm d p ->
  Z.abs (pos_x p - pos_x start) + Z.abs (pos_y p - pos_y start) <= d.
Proof.
  intros Hwall R.
  assert (Step : forall c m,
            Z.abs (pos_x (next gs c m) - pos_x c)
            + Z.abs (pos_y (next gs c m) - pos_y c) <= 1).
  { intros c m. unfold next, getNextCoord. rewrite Hwall.
    destruct m; simpl; lia. }
  induction R as [m F | fm d c m R IH F].
  - apply Step.
  - pose proof (Step c m). lia.
Qed.

End Search.

(** ** The decision policy *)

Lemma forEach_inv {A S : Type} (body : S -> A -> result S) (P : S -> Prop)
  (l : list A) :
  (forall s a s', In a l -> P s -> body s a = Ok s' -> P s') ->
  forall s s', P s -> forEach body l s = Ok s' -> P s'.
Proof.
  induction l as [| a l IH]; intros Hbody s s' Hs E; simpl in E.
  - inversion E. subst. exact Hs.
  - destruct (body s a) as [s1 |] eqn:E1; simpl in E; [| discriminate].
    apply (IH (fun s0 a0 s0' Ha => Hbody s0 a0 s0' (or_intror Ha)) s1 s');
      [| exact E].
    apply (Hbody s a s1); simpl; auto.
Qed.

Lemma fold_left_inv {A S : Type} (f : S -> A -> S) (P : S -> Prop)
  (l : list A) :
  (forall s a, In a l -> P s -> P (f s a)) ->
  forall s, P s -> P (fold_left f l s).
Proof.
  induction l as [| a l IH]; intros Hf s Hs; simpl; [exact Hs |].
  apply IH.
  - intros s0 a0 Ha. apply Hf. right. exact Ha.
  - apply Hf; simpl; auto.
Qed.

Lemma isMoveImmediatelySafe_true (head : Pos) (d : Direction) (gs : GameState)
  (myId : string) :
  isMoveImmediatelySafe head d gs myId = Ok true <->
  wallMode gs && outOfBounds (getNextCoord head d (wallMode gs)) = false /\
  isOccupied (getNextCoord head d (wallMode gs)) gs myId = Ok false.
Proof.
  unfold isMoveImmediatelySafe.
  destruct (wallMode gs && outOfBounds (getNextCoord head d (wallMode gs))).
  - split; [discriminate | intros [? _]; discriminate].
  - destruct (isOccupied (getNextCoord head d (wallMode gs)) gs myId)
      as [[|] | e]; simpl; split; try discriminate; try (intros [_ ?]; discriminate);
      auto.
Qed.

Lemma filterSafe_sound (head : Pos) (gs : GameState) (myId : string)
  (ms : list Direction) :
  forall l, filterSafe head gs myId ms = Ok l ->
  forall m, In m l -> In m ms /\ isMoveImmediatelySafe head m gs myId = Ok true.
Proof.
  induction ms as [| a ms IH]; intros l E m Hm; simpl in E.
  - inversion E. subst. contradiction.
  - destruct (isMoveImmediatelySafe head a gs myId) as [b |] eqn:Ea;
      simpl in E; [| discriminate].
    destruct (filterSafe head gs myId ms) as [l' |] eqn:El;
      simpl in E; [| discriminate].
    inversion E. subst. clear E.
    destruct b.
    + destruct Hm as [<- | Hm].
      * split; [left; reflexivity | exact Ea].
      * destruct (IH l' eq_refl m Hm). split; [right |]; assumption.
    + destruct (IH l' eq_refl m Hm). split; [right |]; assumption.
Qed.

Lemma pickAt_In (l : list Direction) (i : Z) (d : Direction) :
  pickAt l i = Some d -> In d l.
Proof.
  unfold pickAt. destruct (i <? 0); [discriminate |]. apply nth_error_In.
Qed.

Lemma foodPathMove_In (settings : Settings) (head : Pos) (gs : GameState)
  (player : Player) (safeMoves : list Direction) (m : Direction) :
  foodPathMove settings head gs player safeMoves = Ok (Some m) ->
  In m safeMoves.
Proof.
  unfold foodPathMove.
  destruct (findPathToClosestFood head gs (player_id player))
    as [[[bestMove dist] |] | e]; cbn [bind]; try discriminate.
  destruct (includes bestMove safeMoves) eqn:Inc; [| discriminate].
  apply includes_In in Inc.
  destruct (safetyCheck settings).
  - destruct (countAccessibleTiles _ gs _ _) as [v |]; cbn [bind]; [| discriminate].
    destruct (v >=? snakeLength player); intros E; inversion E; subst; exact Inc.
  - destruct (countAccessibleTiles _ gs _ _) as [v |]; cbn [bind]; [| discriminate].
    destruct (2 * v >=? snakeLength player); intros E; inversion E; subst;
      exact Inc.
Qed.

Lemma closerStep_In (gs : GameState) (head target : Pos)
  (safeMoves : list Direction) (st : option Direction * option Z) :
  (forall m, fst st = Some m -> In m safeMoves) ->
  forall m, fst (fold_left (closerStep gs head target) safeMoves st) = Some m ->
            In m safeMoves.
Proof.
  intros Hst.
  apply (fold_left_inv (closerStep gs head target)
           (fun st => forall m, fst st = Some m -> In m safeMoves));
    [| exact Hst].
  intros s a Ha Hs m. unfold closerStep.
  destruct (ltInf _ (snd s)); simpl.
  - intros E. inversion E. subst. exact Ha.
  - apply Hs.
Qed.

Lemma spaceLoop_In (head : Pos) (gs : GameState) (player : Player)
  (safeMoves : list Direction) (st st' : option Direction * Z) :
  (forall m, fst st = Some m -> In m safeMoves) ->
  forEach (spaceStep head gs player) safeMoves st = Ok st' ->
  forall m, fst st' = Some m -> In m safeMoves.
Proof.
  intros Hst.
  apply (forEach_inv (spaceStep head gs player)
           (fun st => forall m, fst st = Some m -> In m safeMoves));
    [| exact Hst].
  intros s a s' Ha Hs. unfold spaceStep.
  destruct (countAccessibleTiles _ gs _ _) as [v |]; simpl; [| discriminate].
  destruct (v >? snd s); intros E; inversion E; subst; simpl.
  - intros m Em. inversion Em. subst. exact Ha.
  - exact Hs.
Qed.

Lemma survivalMove_In (head : Pos) (gs : GameState) (player : Player)
  (safeMoves : list Direction) (m : Direction) :
  survivalMove head gs player safeMoves = Ok (Some m) -> In m safeMoves.
Proof.
  unfold survivalMove.
  destruct (forEach (spaceStep head gs player) safeMoves (None, -1))
    as [[best maxSpace] |] eqn:E; simpl; [| discriminate].
  assert (Hbest : forall b, best = Some b -> In b safeMoves).
  { apply (spaceLoop_In head gs player safeMoves (None, -1) (best, maxSpace));
      [simpl; discriminate | exact E]. }
  destruct (maxSpace >=? snakeLength player).
  - intros R. inversion R. auto.
  - destruct (nth_error (snake player) _) as [tail |].
    + destruct (fst (fold_left (closerStep gs head tail) safeMoves (None, None)))
        as [c |] eqn:Ec.
      * intros R. inversion R. subst.
        apply (closerStep_In gs head tail safeMoves (None, None));
          [simpl; discriminate | exact Ec].
      * intros R. inversion R. auto.
    + intros R. inversion R. auto.
Qed.

Lemma hotColdMove_In (head : Pos) (gs : GameState) (firstSafe : Direction)
  (safeMoves : list Direction) :
  In firstSafe safeMoves -> In (hotColdMove head gs firstSafe safeMoves) safeMoves.
Proof.
  intros Hfirst. unfold hotColdMove.
  destruct (pickTargetFood head gs) as [target |]; [| exact Hfirst].
  destruct (fst (fold_left (closerStep gs head target) safeMoves
                   (Some firstSafe, None))) as [m |] eqn:E; [| exact Hfirst].
  apply (closerStep_In gs head target safeMoves (Some firstSafe, None));
    [| exact E].
  simpl. intros m0 E0. inversion E0. subst. exact Hfirst.
Qed.

Lemma fallbackMove_In (rand : nat -> Q) (k : nat) (settings : Settings)
  (head : Pos) (gs : GameState) (player : Player) (firstSafe : Direction)
  (safeMoves : list Direction) :
  In firstSafe safeMoves ->
  In (fst (fallbackMove rand k settings head gs player firstSafe safeMoves))
     safeMoves.
Proof.
  intros Hfirst. unfold fallbackMove.
  destruct (negb (usePathfinding settings)
            && includes (direction player) safeMoves) eqn:Straight.
  - apply andb_true_iff in Straight. destruct Straight as [_ Inc].
    apply includes_In in Inc.
    destruct (Qltb (rand k) (6 # 10)); simpl;
      [exact Inc | apply hotColdMove_In; exact Hfirst].
  - simpl. apply hotColdMove_In. exact Hfirst.
Qed.

Lemma decideNPCMove_in_safeMoves (rand : nat -> Q) (npc : NPC)
  (gs : GameState) (player : Player) (k : nat)
  (d : Direction) (npc' : NPC) (k' : nat) :
  decideNPCMove rand npc gs player k = Ok (Some d, npc', k') ->
  exists head rest safeMoves,
    snake player = head :: rest /\
    filterSafe head gs (player_id player) possibleMoves = Ok safeMoves /\
    In d safeMoves.
Proof.
  unfold decideNPCMove.
  destruct (snake player) as [| head rest]; [discriminate |].
  destruct (negb (isAlive player)); [discriminate |].
  destruct (decisionDelay npc >? 0); [discriminate |].
  destruct (filterSafe head gs (player_id player) possibleMoves)
    as [safe |] eqn:Esafe; cbn [bind]; [| discriminate].
  intros E. exists head, rest, safe.
  split; [reflexivity |]. split; [exact Esafe |]. clear Esafe.
  destruct safe as [| firstSafe others]; [discriminate |].
  assert (Hfirst : In firstSafe (firstSafe :: others)) by (left; reflexivity).
  remember (firstSafe :: others) as safeMoves eqn:Hs.
  remember (getDifficultySettings (effectiveDifficulty npc player))
    as settings eqn:Hset.
  destruct (Qltb (rand k) (errorChance settings)).
  { inversion E as [[Hpick Hnpc Hk]]. apply pickAt_In in Hpick. exact Hpick. }
  pose proof (fallbackMove_In rand (S k) settings head gs player firstSafe
                safeMoves Hfirst) as Hfb.
  destruct (fallbackMove rand (S k) settings head gs player firstSafe safeMoves)
    as [fm fk]. simpl in Hfb.
  destruct (usePathfinding settings).
  - destruct (foodPathMove settings head gs player safeMoves)
      as [[bestMove |] |] eqn:Efood; simpl in E; try discriminate.
    + inversion E. subst. apply (foodPathMove_In _ _ _ _ _ _ Efood).
    + destruct (safetyCheck settings).
      * destruct (survivalMove head gs player safeMoves) as [m |] eqn:Esurv;
          simpl in E; [| discriminate].
        inversion E. subst. apply (survivalMove_In _ _ _ _ _ Esurv).
      * inversion E. subst. exact Hfb.
  - inversion E. subst. exact Hfb.
Qed.

(** C10. Every direction the policy returns is one of the safe moves of the
    current head: the cell it leads to is inside the board when the grid is
    walled and is not blocked according to the occupancy oracle. *)
Theorem decideNPCMove_only_proposes_safe_moves (rand : nat -> Q) (npc : NPC)
  (gs : GameState) (player : Player) (k : nat)
  (d : Direction) (npc' : NPC) (k' : nat) :
  decideNPCMove rand npc gs player k = Ok (Some d, npc', k') ->
  exists head,
    nth_error (snake player) 0 = Some head /\
    isMoveImmediatelySafe head d gs (player_id player) = Ok true /\
    (wallMode gs = true ->
     outOfBounds (getNextCoord head d (wallMode gs)) = false) /\
    isOccupied (getNextCoord head d (wallMode gs)) gs (player_id player)
      = Ok false.
Proof.
  intros E.
  destruct (decideNPCMove_in_safeMoves _ _ _ _ _ _ _ _ E)
    as [head [rest [safeMoves [Hsnake [Hsafe Hd]]]]].
  exists head. rewrite Hsnake. split; [reflexivity |].
  destruct (filterSafe_sound _ _ _ _ _ Hsafe d Hd) as [_ Safe].
  split; [exact Safe |].
  apply isMoveImmediatelySafe_true in Safe. destruct Safe as [Hwall Hocc].
  split; [| exact Hocc].
  intros W. rewrite W in Hwall |- *. exact Hwall.
Qed.

(** *** The policy always returns *)

Section Totality.

Variable gs : GameState.
Hypothesis gs_wf : wellFormed gs.
Hypothesis width_pos : 0 < GRID_WIDTH.
Hypothesis height_pos : 0 < GRID_HEIGHT.

(** The number of cells reachable from [c], as the estimator sees it under
    every positive limit. *)
Lemma countAccessibleTiles_card (c : Pos) (myId : string) :
  exists n, 1 <= n /\
    forall limit, 0 < limit ->
      countAccessibleTiles c gs myId limit = Ok (Z.min limit n).
Proof.
  destruct (countAccessibleTiles_spec gs myId gs_wf width_pos height_pos c)
    as [[cells [ND Hcells]] Hrun].
  exists (Z.of_nat (List.length cells)). split.
  - assert (In c cells) by (apply Hcells; constructor).
    destruct cells; [contradiction | simpl; lia].
  - intros limit Hlim. apply Hrun; assumption.
Qed.

Lemma countAccessibleTiles_total (c : Pos) (myId : string) (limit : Z) :
  0 < limit ->
  exists v, countAccessibleTiles c gs myId limit = Ok v /\ 1 <= v <= limit.
Proof.
  intros Hlim. destruct (countAccessibleTiles_card c myId) as [n [Hn Hrun]].
  exists (Z.min limit n). split; [apply Hrun; exact Hlim | lia].
Qed.

Lemma findPathToClosestFood_total (startPos : Pos) (myId : string) :
  exists r, findPathToClosestFood startPos gs myId = Ok r.
Proof.
  pose proof (findPath_outcome gs myId gs_wf width_pos height_pos startPos)
    as Out.
  destruct (findPathToClosestFood startPos gs myId) as [r | e].
  - exists r. reflexivity.
  - contradiction.
Qed.

Lemma isMoveImmediatelySafe_ok (head : Pos) (m : Direction) (myId : string) :
  isMoveImmediatelySafe head m gs myId
    = Ok (negb (blocked gs (getNextCoord head m (wallMode gs)))).
Proof.
  unfold isMoveImmediatelySafe.
  rewrite (isOccupied_ok gs _ myId gs_wf). unfold blocked.
  destruct (wallMode gs && outOfBounds (getNextCoord head m (wallMode gs)));
    reflexivity.
Qed.

Lemma filterSafe_ok (head : Pos) (myId : string) (ms : list Direction) :
  filterSafe head gs myId ms
    = Ok (filter (fun m => negb (blocked gs (getNextCoord head m (wallMode gs))))
            ms).
Proof.
  induction ms as [| a ms IH]; simpl; [reflexivity |].
  rewrite isMoveImmediatelySafe_ok, IH. cbn [bind]. reflexivity.
Qed.

Lemma foodPathMove_total (settings : Settings) (head : Pos) (player : Player)
  (safeMoves : list Direction) :
  0 < snakeLength player ->
  exists r, foodPathMove settings head gs player safeMoves = Ok r.
Proof.
  intros Hlen. unfold foodPathMove.
  destruct (findPathToClosestFood_total head (player_id player)) as [r ->].
  cbn [bind]. destruct r as [[bestMove dist] |]; [| eexists; reflexivity].
  destruct (includes bestMove safeMoves); [| eexists; reflexivity].
  destruct (safetyCheck settings).
  - destruct (countAccessibleTiles_total
                (getNextCoord head bestMove (wallMode gs)) (player_id player)
                (snakeLength player) Hlen) as [v [-> _]].
    cbn [bind]. eexists. reflexivity.
  - destruct (countAccessibleTiles_total
                (getNextCoord head bestMove (wallMode gs)) (player_id player)
                20 ltac:(lia)) as [v [-> _]].
    cbn [bind]. eexists. reflexivity.
Qed.

Lemma spaceLoop_total (head : Pos) (player : Player) (l : list Direction) :
  forall st, exists st', forEach (spaceStep head gs player) l st = Ok st'.
Proof.
  induction l as [| a l IH]; intros st; simpl; [eexists; reflexivity |].
  unfold spaceStep at 1.
  destruct (countAccessibleTiles_total
              (getNextCoord head a (wallMode gs)) (player_id player)
              100 ltac:(lia)) as [v [-> _]].
  cbn [bind]. destruct (v >? snd st); cbn [bind]; apply IH.
Qed.

Lemma survivalMove_total (head : Pos) (player : Player)
  (safeMoves : list Direction) :
  exists r, survivalMove head gs player safeMoves = Ok r.
Proof.
  unfold survivalMove.
  destruct (spaceLoop_total head player safeMoves (None, -1))
    as [[best maxSpace] ->].
  cbn [bind]. destruct (maxSpace >=? snakeLength player);
    [eexists; reflexivity |].
  destruct (nth_error (snake player) _) as [tail |]; [| eexists; reflexivity].
  destruct (fst (fold_left (closerStep gs head tail) safeMoves (None, None)));
    eexists; reflexivity.
Qed.

Lemma decideNPCMove_total (rand : nat -> Q) (npc : NPC) (player : Player)
  (k : nat) :
  exists r, decideNPCMove rand npc gs player k = Ok r.
Proof.
  unfold decideNPCMove.
  destruct (snake player) as [| head rest] eqn:Hsnake; [eexists; reflexivity |].
  destruct (negb (isAlive player)); [eexists; reflexivity |].
  destruct (decisionDelay npc >? 0); [eexists; reflexivity |].
  rewrite filterSafe_ok. cbn [bind].
  destruct (filter _ possibleMoves) as [| firstSafe others];
    [eexists; reflexivity |].
  destruct (Qltb (rand k) _); [eexists; reflexivity |].
  destruct (fallbackMove rand (S k) _ head gs player firstSafe
              (firstSafe :: others)) as [fm fk].
  assert (Hlen : 0 < snakeLength player).
  { unfold snakeLength. rewrite Hsnake. simpl. lia. }
  destruct (usePathfinding _); [| eexists; reflexivity].
  destruct (foodPathMove_total
              (getDifficultySettings (effectiveDifficulty npc player))
              head player (firstSafe :: others) Hlen) as [r ->].
  cbn [bind]. destruct r as [bestMove |]; [eexists; reflexivity |].
  destruct (safetyCheck _); [| eexists; reflexivity].
  destruct (survivalMove_total head player (firstSafe :: others)) as [m ->].
  cbn [bind]. eexists. reflexivity.
Qed.

End Totality.

(** ** The tick dispatcher *)

(** Case analysis along the branches of [decideNPCMove] behind the delay
    gate; [fin] closes every branch that returns. *)
Ltac policy_branches head gs player rand k fin :=
  destruct (filterSafe head gs (player_id player) possibleMoves)
    as [safe |]; cbn [bind]; [| discriminate];
  destruct safe as [| firstSafe others]; [fin |];
  destruct (Qltb (rand k) _); [fin |];
  destruct (fallbackMove rand (S k) _ head gs player firstSafe
              (firstSafe :: others)) as [fm fk];
  destruct (usePathfinding _); [| fin];
  destruct (foodPathMove _ head gs player (firstSafe :: others))
    as [[bestMove |] |]; cbn [bind]; try discriminate; [fin |];
  destruct (safetyCheck _); [| fin];
  destruct (survivalMove head gs player (firstSafe :: others)) as [m |];
    cbn [bind]; [fin | discriminate].

Lemma setDecisionDelay_same (npc : NPC) :
  npc = setDecisionDelay npc (decisionDelay npc).
Proof. destruct npc; reflexivity. Qed.

Lemma decideNPCMove_agent_frame (rand : nat -> Q) (npc : NPC) (gs : GameState)
  (player : Player) (k : nat) (r : option Direction) (npc' : NPC) (k' : nat) :
  decideNPCMove rand npc gs player k = Ok (r, npc', k') ->
  npc' = setDecisionDelay npc (decisionDelay npc').
Proof.
  unfold decideNPCMove.
  assert (Same : forall (r0 : option Direction) (k0 : nat),
            Ok (r0, npc, k0) = Ok (r, npc', k') ->
            npc' = setDecisionDelay npc (decisionDelay npc')).
  { intros r0 k0 E. inversion E. subst. apply setDecisionDelay_same. }
  assert (Set_ : forall (r0 : option Direction) (x : Z) (k0 : nat),
            Ok (r0, setDecisionDelay npc x, k0) = Ok (r, npc', k') ->
            npc' = setDecisionDelay npc (decisionDelay npc')).
  { intros r0 x k0 E. inversion E. subst. reflexivity. }
  destruct (snake player) as [| head rest]; [apply Same |].
  destruct (negb (isAlive player)); [apply Same |].
  destruct (decisionDelay npc >? 0); [apply Set_ |].
  policy_branches head gs player rand k ltac:(apply Set_).
Qed.

Lemma stepAgent_refl (npcs : Agents) : Forall2 stepAgent npcs npcs.
Proof.
  induction npcs as [| [key npc] npcs IH]; constructor; [| exact IH].
  split; [reflexivity | apply setDecisionDelay_same].
Qed.

Lemma stepAgent_trans (l1 l2 l3 : Agents) :
  Forall2 stepAgent l1 l2 -> Forall2 stepAgent l2 l3 -> Forall2 stepAgent l1 l3.
Proof.
  intros H12. revert l3. induction H12 as [| a b l1 l2 Hab H12 IH]; intros l3 H23.
  - inversion H23. constructor.
  - inversion H23 as [| b' c l2' l3' Hbc H23' E1 E2]; subst. constructor.
    + destruct Hab as [K1 N1], Hbc as [K2 N2]. split; [congruence |].
      rewrite N2. rewrite N1 at 1. reflexivity.
    + apply IH. exact H23'.
Qed.

Lemma putNPC_stepAgent (id : string) (npc npc' : NPC) (npcs : Agents) :
  getNPC id npcs = Some npc ->
  npc' = setDecisionDelay npc (decisionDelay npc') ->
  Forall2 stepAgent npcs (putNPC id npc' npcs).
Proof.
  intros Hget Hframe. induction npcs as [| [key n] npcs IH]; simpl in *.
  - constructor.
  - destruct (String.eqb key id).
    + inversion Hget. subst n. constructor; [| apply stepAgent_refl].
      split; [reflexivity | exact Hframe].
    + constructor; [| apply IH; exact Hget].
      split; [reflexivity | apply setDecisionDelay_same].
Qed.

Lemma getNPC_putNPC_other (id id' : string) (npc' : NPC) (npcs : Agents) :
  id <> id' -> getNPC id' (putNPC id npc' npcs) = getNPC id' npcs.
Proof.
  intros Hne. induction npcs as [| [key n] npcs IH]; simpl; [reflexivity |].
  destruct (String.eqb key id) eqn:Kid; simpl.
  - apply String.eqb_eq in Kid. subst key.
    destruct (String.eqb id id') eqn:E; [| reflexivity].
    apply String.eqb_eq in E. contradiction.
  - rewrite IH. reflexivity.
Qed.

Lemma commitDirection_snakeOk (p : Player) (proposal : option Direction) :
  snakeOk p -> snakeOk (commitDirection p proposal).
Proof.
  unfold commitDirection. destruct proposal as [d |]; [| auto].
  destruct (negb _); auto.
Qed.

Section Dispatcher.

Hypothesis width_pos : 0 < GRID_WIDTH.
Hypothesis height_pos : 0 < GRID_HEIGHT.

Lemma processLoop_spec (rand : nat -> Q) (wall : bool) (foods : list Pos) :
  forall (todo done : list Player) (npcs : Agents) (k : nat)
         (proposals : list (string * option Direction)),
    Forall snakeOk (done ++ todo) ->
    exists todo' npcs' k' proposals',
      processLoop rand wall foods done todo npcs k proposals
        = Ok (done ++ todo', npcs', k', proposals') /\
      Forall2 stepPlayer todo todo' /\
      Forall2 stepAgent npcs npcs' /\
      (forall id,
         (forall p, In p todo -> consulted p = true -> player_id p <> id) ->
         getNPC id npcs' = getNPC id npcs).
Proof.
  induction todo as [| p rest IH]; intros done npcs k proposals Hwf.
  - exists [], npcs, k, proposals. simpl. rewrite app_nil_r.
    split; [reflexivity |]. split; [constructor |].
    split; [apply stepAgent_refl | reflexivity].
  - assert (Skip :
      consulted p = false \/ getNPC (player_id p) npcs = None ->
      exists todo' npcs' k' proposals',
        processLoop rand wall foods (done ++ [p]) rest npcs k proposals
          = Ok (done ++ todo', npcs', k', proposals') /\
        Forall2 stepPlayer (p :: rest) todo' /\
        Forall2 stepAgent npcs npcs' /\
        (forall id,
           (forall q, In q (p :: rest) -> consulted q = true ->
                      player_id q <> id) ->
           getNPC id npcs' = getNPC id npcs)).
    { intros _.
      destruct (IH (done ++ [p]) npcs k proposals)
        as [todo' [npcs' [k' [proposals' [E [Hp [Ha Hother]]]]]]].
      { rewrite <- app_assoc. exact Hwf. }
      exists (p :: todo'), npcs', k', proposals'.
      rewrite <- app_assoc in E. split; [exact E |].
      split; [| split; [exact Ha |]].
      - constructor; [| exact Hp]. split; [exists None; reflexivity | reflexivity].
      - intros id Hid. apply Hother. intros q Hq. apply Hid. right. exact Hq. }
    cbn [processLoop].
    rewrite <- negb_andb. fold (consulted p).
    destruct (consulted p) eqn:Hc; cbn [negb]; [| apply Skip; auto].
    destruct (getNPC (player_id p) npcs) as [npc |] eqn:Hget;
      [| apply Skip; auto].
    clear Skip.
    destruct (decideNPCMove_total
                (mkGameState wall (done ++ p :: rest) foods) Hwf
                width_pos height_pos rand npc p k)
      as [[[proposal npc'] k1] Hdec].
    rewrite Hdec. cbn [bind].
    pose proof (decideNPCMove_agent_frame _ _ _ _ _ _ _ _ Hdec) as Hframe.
    destruct (IH (done ++ [commitDirection p proposal])
                 (putNPC (player_id p) npc' npcs) k1
                 (proposals ++ [(player_id p, proposal)]))
      as [todo' [npcs' [k' [proposals' [E [Hp [Ha Hother]]]]]]].
    { rewrite <- app_assoc. simpl. apply Forall_app in Hwf.
      destruct Hwf as [Hd Ht]. apply Forall_app. split; [exact Hd |].
      inversion Ht; subst. constructor; [| assumption].
      apply commitDirection_snakeOk. assumption. }
    exists (commitDirection p proposal :: todo'), npcs', k', proposals'.
    rewrite <- app_assoc in E. split; [exact E |].
    split; [| split].
    + constructor; [| exact Hp]. split; [exists proposal; reflexivity |].
      intros Hfalse. congruence.
    + apply stepAgent_trans with (l2 := putNPC (player_id p) npc' npcs);
        [| exact Ha].
      apply putNPC_stepAgent with (npc := npc); assumption.
    + intros id Hid. rewrite Hother.
      * apply getNPC_putNPC_other. apply Hid; [left; reflexivity | exact Hc].
      * intros q Hq. apply Hid. right. exact Hq.
Qed.

Lemma processNPCInputsLog_spec (rand : nat -> Q) (gs : GameState)
  (npcs : Agents) (k : nat) :
  wellFormed gs ->
  exists ps npcs' k' proposals,
    processNPCInputsLog rand gs npcs k
      = Ok (mkGameState (wallMode gs) ps (food gs), npcs', k', proposals) /\
    Forall2 stepPlayer (players gs) ps /\
    Forall2 stepAgent npcs npcs' /\
    (forall id,
       (forall p, In p (players gs) -> consulted p = true -> player_id p <> id) ->
       getNPC id npcs' = getNPC id npcs).
Proof.
  intros Hwf. unfold processNPCInputsLog.
  destruct (processLoop_spec rand (wallMode gs) (food gs) (players gs) []
              npcs k [] Hwf)
    as [ps [npcs' [k' [proposals [E R]]]]].
  exists ps, npcs', k', proposals. rewrite E. cbn [bind app].
  split; [reflexivity | exact R].
Qed.

Lemma processNPCInputs_spec (rand : nat -> Q) (gs : GameState)
  (npcs : Agents) (k : nat) :
  wellFormed gs ->
  exists ps npcs' k',
    processNPCInputs rand gs npcs k
      = Ok (mkGameState (wallMode gs) ps (food gs), npcs', k') /\
    Forall2 stepPlayer (players gs) ps /\
    Forall2 stepAgent npcs npcs' /\
    (forall id,
       (forall p, In p (players gs) -> consulted p = true -> player_id p <> id) ->
       getNPC id npcs' = getNPC id npcs).
Proof.
  intros Hwf. unfold processNPCInputs.
  destruct (processNPCInputsLog_spec rand gs npcs k Hwf)
    as [ps [npcs' [k' [proposals [E R]]]]].
  exists ps, npcs', k'. rewrite E. cbn [bind]. split; [reflexivity | exact R].
Qed.


Lemma setNextDirection_same (p : Player) :
  p = setNextDirection p (nextDirection p).
Proof. destruct p; reflexivity. Qed.

Lemma commitDirection_frame (p : Player) (proposal : option Direction) :
  commitDirection p proposal
    = setNextDirection p (nextDirection (commitDirection p proposal)).
Proof.
  unfold commitDirection. destruct proposal as [d |];
    [| apply setNextDirection_same].
  destruct (negb _); [reflexivity | apply setNextDirection_same].
Qed.


Lemma consulted_false (p : Player) :
  player_type p <> "npc"%string \/ isAlive p = false -> consulted p = false.
Proof.
  unfold consulted. intros [Ht | Ha].
  - destruct (String.eqb (player_type p) "npc") eqn:E; [| reflexivity].
    apply String.eqb_eq in E. contradiction.
  - rewrite Ha. apply andb_false_r.
Qed.

Lemma consulted_true (p : Player) :
  consulted p = true -> player_type p = "npc"%string /\ isAlive p = true.
Proof.
  unfold consulted. intros H. apply andb_true_iff in H.
  destruct H as [Ht Ha]. apply String.eqb_eq in Ht. auto.
Qed.

(** C9. A tick changes nothing but the pending direction of living bot
    players and the reaction-delay counter of their agents: topology flag and
    food are the same, every player keeps identity, control type, alive flag,
    segments and heading, players that are not living bots are untouched,
    every agent keeps its binding and all fields other than the counter, and
    agents not bound to a living bot are untouched. *)
Theorem processNPCInputs_frame (rand : nat -> Q) (gs : GameState)
  (npcs : Agents) (k : nat) :
  wellFormed gs ->
  exists gs' npcs' k',
    processNPCInputs rand gs npcs k = Ok (gs', npcs', k') /\
    wallMode gs' = wallMode gs /\
    food gs' = food gs /\
    Forall2
      (fun p p' =>
         p' = setNextDirection p (nextDirection p') /\
         (player_type p <> "npc"%string \/ isAlive p = false -> p' = p))
      (players gs) (players gs') /\
    Forall2
      (fun a a' =>
         fst a' = fst a /\
         snd a' = setDecisionDelay (snd a) (decisionDelay (snd a')))
      npcs npcs' /\
    (forall id,
       (forall p, In p (players gs) -> player_type p = "npc"%string ->
                  isAlive p = true -> player_id p <> id) ->
       getNPC id npcs' = getNPC id npcs).
Proof.
  intros Hwf.
  destruct (processNPCInputs_spec rand gs npcs k Hwf)
    as [ps [npcs' [k' [E [Hp [Ha Hother]]]]]].
  exists (mkGameState (wallMode gs) ps (food gs)), npcs', k'.
  split; [exact E |]. simpl.
  split; [reflexivity |]. split; [reflexivity |]. split; [| split].
  - apply (Forall2_impl (R1 := stepPlayer)); [| exact Hp].
    intros p p' [[proposal ->] Hskip]. split.
    + apply commitDirection_frame.
    + intros Hnot. apply Hskip. apply consulted_false. exact Hnot.
  - exact Ha.
  - intros id Hid. apply Hother. intros p Hin Hc.
    destruct (consulted_true p Hc) as [Ht Halive]. apply Hid; assumption.
Qed.

(** C8. The tier used for a decision is the middle one for a lowest-tier
    agent whose snake is longer than 20, the top one for a middle-tier agent
    whose snake is longer than 30, and the stored tier otherwise; a decision
    that is taken resets the counter to the reaction delay of that tier; and
    neither the policy nor the dispatcher changes the stored tier. *)
Theorem effectiveDifficulty_escalates_and_stored_tier_is_kept :
  (forall npc player,
     difficulty npc = easy -> 20 < snakeLength player ->
     effectiveDifficulty npc player = medium) /\
  (forall npc player,
     difficulty npc = medium -> 30 < snakeLength player ->
     effectiveDifficulty npc player = hard) /\
  (forall npc player,
     ~ (difficulty npc = easy /\ 20 < snakeLength player) ->
     ~ (difficulty npc = medium /\ 30 < snakeLength player) ->
     effectiveDifficulty npc player = difficulty npc) /\
  (forall rand npc gs player k r npc' k',
     decideNPCMove rand npc gs player k = Ok (r, npc', k') ->
     difficulty npc' = difficulty npc /\
     (snake player <> [] -> isAlive player = true -> decisionDelay npc <= 0 ->
      decisionDelay npc'
        = reactionDelayFrames
            (getDifficultySettings (effectiveDifficulty npc player)))) /\
  (forall rand gs npcs k,
     wellFormed gs ->
     exists gs' npcs' k',
       processNPCInputs rand gs npcs k = Ok (gs', npcs', k') /\
       Forall2
         (fun a a' => fst a' = fst a /\
                      difficulty (snd a') = difficulty (snd a))
         npcs npcs').
Proof.
  split; [| split; [| split; [| split]]].
  - intros npc player Hd Hl. unfold effectiveDifficulty. rewrite Hd.
    apply Z.gtb_lt in Hl. rewrite Hl. reflexivity.
  - intros npc player Hd Hl. unfold effectiveDifficulty. rewrite Hd.
    apply Z.gtb_lt in Hl. rewrite Hl.
    change (String.eqb medium easy) with false. rewrite andb_false_r.
    reflexivity.
  - intros npc player N1 N2. unfold effectiveDifficulty.
    destruct ((snakeLength player >? 20) && String.eqb (difficulty npc) easy)
      eqn:C1.
    { apply andb_true_iff in C1. destruct C1 as [L D].
      apply Z.gtb_lt in L. apply String.eqb_eq in D. tauto. }
    destruct ((snakeLength player >? 30) && String.eqb (difficulty npc) medium)
      eqn:C2; [| reflexivity].
    apply andb_true_iff in C2. destruct C2 as [L D].
    apply Z.gtb_lt in L. apply String.eqb_eq in D. tauto.
  - intros rand npc gs player k r npc' k' E. split.
    + rewrite (decideNPCMove_agent_frame _ _ _ _ _ _ _ _ E). reflexivity.
    + intros Hsnake Halive Hdelay. revert E. unfold decideNPCMove.
      destruct (snake player) as [| head rest]; [contradiction |].
      rewrite Halive. cbn [negb].
      assert (Hgt : (decisionDelay npc >? 0) = false).
      { destruct (decisionDelay npc >? 0) eqn:G; [| reflexivity].
        apply Z.gtb_lt in G. lia. }
      rewrite Hgt.
      assert (Set_ : forall (r0 : option Direction) (x : Z) (k0 : nat),
                Ok (r0, setDecisionDelay npc x, k0) = Ok (r, npc', k') ->
                decisionDelay npc' = x).
      { intros r0 x k0 E. inversion E. subst. reflexivity. }
      policy_branches head gs player rand k ltac:(apply Set_).
  - intros rand gs npcs k Hwf.
    destruct (processNPCInputs_spec rand gs npcs k Hwf)
      as [ps [npcs' [k' [E [_ [Ha _]]]]]].
    exists (mkGameState (wallMode gs) ps (food gs)), npcs', k'.
    split; [exact E |].
    apply (Forall2_impl (R1 := stepAgent)); [| exact Ha].
    intros a a' [Hk Hn]. split; [exact Hk |]. rewrite Hn. reflexivity.
Qed.

End Dispatcher.

(** *** What the policy reads of the game state *)




Section SameBoard.

Variables gs1 gs2 : GameState.
Hypothesis same : sameBoard gs1 gs2.

















End SameBoard.


(** ** Dead ends at the top tier *)

Section HardTier.

Variable gs : GameState.
Hypothesis gs_wf : wellFormed gs.
Hypothesis width_pos : 0 < GRID_WIDTH.
Hypothesis height_pos : 0 < GRID_HEIGHT.

Lemma foodPathMove_roomy (settings : Settings) (head : Pos) (player : Player)
  (safeMoves : list Direction) (m : Direction) :
  safetyCheck settings = true ->
  foodPathMove settings head gs player safeMoves = Ok (Some m) ->
  roomy gs player head m.
Proof.
  intros Hcheck. unfold foodPathMove. rewrite Hcheck.
  destruct (findPathToClosestFood head gs (player_id player))
    as [[[bestMove dist] |] | e]; cbn [bind]; try discriminate.
  destruct (includes bestMove safeMoves); [| discriminate].
  destruct (countAccessibleTiles _ gs _ _) as [v |] eqn:Ev; cbn [bind];
    [| discriminate].
  destruct (v >=? snakeLength player) eqn:Hv; intros E; inversion E; subst.
  exists v. split; [exact Ev | apply Z.geb_le; exact Hv].
Qed.

Lemma spaceLoop_max (head : Pos) (player : Player) (l : list Direction) :
  forall st st',
    forEach (spaceStep head gs player) l st = Ok st' ->
    snd st <= snd st' /\
    (forall m, In m l ->
       exists v, countAccessibleTiles (getNextCoord head m (wallMode gs)) gs
                   (player_id player) 100 = Ok v /\ v <= snd st') /\
    (st' = st \/
     exists m, In m l /\ fst st' = Some m /\
       countAccessibleTiles (getNextCoord head m (wallMode gs)) gs
         (player_id player) 100 = Ok (snd st')).
Proof.
  induction l as [| a l IH]; intros st st' E; cbn [forEach] in E.
  - inversion E. subst. split; [lia |]. split; [intros m [] | left; reflexivity].
  - unfold spaceStep at 1 in E.
    destruct (countAccessibleTiles (getNextCoord head a (wallMode gs)) gs
                (player_id player) 100) as [v |] eqn:Ev; cbn [bind] in E;
      [| discriminate].
    destruct (v >? snd st) eqn:Hv; cbn [bind] in E.
    + apply Z.gtb_lt in Hv.
      destruct (IH _ _ E) as [Hle [Hall Hbest]]. cbn [fst snd] in *.
      split; [lia |]. split.
      * intros m [<- | Hm]; [exists v; split; [exact Ev | exact Hle] |].
        apply Hall. exact Hm.
      * right. destruct Hbest as [-> | [m [Hm [Hf Hc]]]].
        -- exists a. split; [left; reflexivity |]. split; [reflexivity | exact Ev].
        -- exists m. split; [right; exact Hm |]. split; assumption.
    + assert (v <= snd st).
      { destruct (Z_lt_le_dec (snd st) v) as [Hlt | Hle]; [| exact Hle].
        apply Z.gtb_lt in Hlt. congruence. }
      destruct (IH _ _ E) as [Hle [Hall Hbest]].
      split; [exact Hle |]. split.
      * intros m [<- | Hm]; [exists v; split; [exact Ev | lia] |].
        apply Hall. exact Hm.
      * destruct Hbest as [-> | [m [Hm [Hf Hc]]]]; [left; reflexivity |].
        right. exists m. split; [right; exact Hm |]. split; assumption.
Qed.

Lemma roomy_iff_cap (player : Player) (head : Pos) (m : Direction) (v : Z) :
  0 < snakeLength player <= 100 ->
  countAccessibleTiles (getNextCoord head m (wallMode gs)) gs
    (player_id player) 100 = Ok v ->
  (roomy gs player head m <-> snakeLength player <= v).
Proof.
  intros Hlen Ev.
  destruct (countAccessibleTiles_card gs gs_wf width_pos height_pos
              (getNextCoord head m (wallMode gs)) (player_id player))
    as [n [Hn Hrun]].
  rewrite (Hrun 100 ltac:(lia)) in Ev. inversion Ev. subst v.
  unfold roomy. rewrite (Hrun (snakeLength player) ltac:(lia)). split.
  - intros [v [E Hv]]. inversion E. subst v. lia.
  - intros Hv. eexists. split; [reflexivity | lia].
Qed.

Lemma survivalMove_roomy (head : Pos) (player : Player)
  (safeMoves : list Direction) (d : Direction) :
  0 < snakeLength player <= 100 ->
  (exists m, In m safeMoves /\ roomy gs player head m) ->
  survivalMove head gs player safeMoves = Ok (Some d) ->
  roomy gs player head d.
Proof.
  intros Hlen [m' [Hm' Hroomy]]. unfold survivalMove.
  destruct (forEach (spaceStep head gs player) safeMoves (None, -1))
    as [[best maxSpace] |] eqn:E; cbn [bind]; [| discriminate].
  destruct (spaceLoop_max head player safeMoves _ _ E) as [_ [Hall Hbest]].
  cbn [fst snd] in *.
  destruct (Hall m' Hm') as [v' [Ev' Hle']].
  apply (roomy_iff_cap player head m' v' Hlen Ev') in Hroomy.
  assert (Hmax : (maxSpace >=? snakeLength player) = true)
    by (apply Z.geb_le; lia).
  rewrite Hmax. intros R. inversion R. subst best.
  destruct Hbest as [Heq | [m [Hm [Hf Hc]]]]; [inversion Heq |].
  inversion Hf. subst m.
  apply (roomy_iff_cap player head d maxSpace Hlen Hc). lia.
Qed.

(** The dead-end guarantee of the top tier, for snakes of at most 100
    segments (the cap of the survival search): outside the delay gate, when
    some safe move is not certified a dead end, the move returned is not
    certified a dead end either. *)
Lemma hard_tier_avoids_dead_ends_up_to_cap (rand : nat -> Q) (npc : NPC)
  (player : Player) (k : nat) (head : Pos) (rest : list Pos)
  (d : Direction) (npc' : NPC) (k' : nat) :
  effectiveDifficulty npc player = hard ->
  decisionDelay npc <= 0 ->
  (forall n, (0 <= rand n)%Q) ->
  snakeLength player <= 100 ->
  snake player = head :: rest ->
  (exists m, isMoveImmediatelySafe head m gs (player_id player) = Ok true /\
             roomy gs player head m) ->
  decideNPCMove rand npc gs player k = Ok (Some d, npc', k') ->
  roomy gs player head d.
Proof.
  intros Htier Hdelay Hrand Hcap Hsnake [m' [Hsafe' Hroomy']].
  assert (Hlen : 0 < snakeLength player <= 100).
  { unfold snakeLength in *. rewrite Hsnake in *. simpl in *. lia. }
  unfold decideNPCMove. rewrite Hsnake, Htier.
  destruct (negb (isAlive player)); [discriminate |].
  destruct (decisionDelay npc >? 0); [discriminate |].
  rewrite (filterSafe_ok gs gs_wf). cbn [bind].
  assert (Hin : In m' (filter
            (fun m => negb (blocked gs (getNextCoord head m (wallMode gs))))
            possibleMoves)).
  { apply filter_In. split; [apply all_moves |].
    rewrite (isMoveImmediatelySafe_ok gs gs_wf) in Hsafe'.
    inversion Hsafe'. reflexivity. }
  destruct (filter _ possibleMoves) as [| firstSafe others]; [contradiction |].
  change (getDifficultySettings hard)
    with {| reactionDelayFrames := 0; errorChance := 0%Q;
            usePathfinding := true; safetyCheck := true |}.
  cbn [errorChance usePathfinding safetyCheck reactionDelayFrames].
  assert (Hno : Qltb (rand k) 0 = false).
  { unfold Qltb. apply negb_false_iff. apply Qle_bool_iff. apply Hrand. }
  rewrite Hno.
  destruct (foodPathMove _ head gs player (firstSafe :: others))
    as [[bestMove |] |] eqn:Efood; cbn [bind]; try discriminate.
  - intros E. inversion E. subst.
    apply (foodPathMove_roomy (mkSettings 0 0%Q true true) head player
             (firstSafe :: others) d eq_refl Efood).
  - destruct (survivalMove head gs player (firstSafe :: others))
      as [m |] eqn:Esurv; cbn [bind]; [| discriminate].
    intros E. inversion E. subst.
    apply (survivalMove_roomy head player (firstSafe :: others) d Hlen);
      [| exact Esurv].
    exists m'. split; assumption.
Qed.

End HardTier.

(** * Further properties of the code *)

(** ** Coordinates *)

Section Coordinates.

Hypothesis width_pos : 0 < GRID_WIDTH.
Hypothesis height_pos : 0 < GRID_HEIGHT.

Lemma rem_wrap (a n : Z) : 0 < n -> 0 <= a + n -> Z.rem (a + n) n = a mod n.
Proof.
  intros Hn Ha. rewrite Z.rem_mod_nonneg by lia.
  replace (a + n) with (a + 1 * n) by lia. apply Z_mod_plus_full.
Qed.

Lemma outOfBounds_false (pos : Pos) :
  outOfBounds pos = false <->
  0 <= pos_x pos < GRID_WIDTH /\ 0 <= pos_y pos < GRID_HEIGHT.
Proof.
  pose proof (outOfBounds_spec pos) as S.
  destruct (outOfBounds pos); split; intros H; try discriminate;
    try reflexivity.
  - exfalso. assert (true = true) as T by reflexivity. apply S in T. lia.
  - destruct (Z_lt_le_dec (pos_x pos) 0); [exfalso; lia |].
    assert (~ (pos_x pos < 0 \/ GRID_WIDTH <= pos_x pos \/
               pos_y pos < 0 \/ GRID_HEIGHT <= pos_y pos)).
    { intros C. apply S in C. discriminate. }
    lia.
Qed.

(** X1. On a wrapping grid a step from a cell of the board ends on a cell of
    the board: the coordinate that moves is reduced modulo the grid size,
    the other one is unchanged. *)
Theorem getNextCoord_wrap_stays_on_board (pos : Pos) (d : Direction) :
  outOfBounds pos = false ->
  outOfBounds (getNextCoord pos d false) = false /\
  getNextCoord pos d false =
    match d with
    | Up => mkPos (pos_x pos) ((pos_y pos - 1) mod GRID_HEIGHT)
    | Down => mkPos (pos_x pos) ((pos_y pos + 1) mod GRID_HEIGHT)
    | Left => mkPos ((pos_x pos - 1) mod GRID_WIDTH) (pos_y pos)
    | Right => mkPos ((pos_x pos + 1) mod GRID_WIDTH) (pos_y pos)
    end.
Proof.
  intros Hin. apply outOfBounds_false in Hin. destruct Hin as [Hx Hy].
  assert (E : getNextCoord pos d false =
    match d with
    | Up => mkPos (pos_x pos) ((pos_y pos - 1) mod GRID_HEIGHT)
    | Down => mkPos (pos_x pos) ((pos_y pos + 1) mod GRID_HEIGHT)
    | Left => mkPos ((pos_x pos - 1) mod GRID_WIDTH) (pos_y pos)
    | Right => mkPos ((pos_x pos + 1) mod GRID_WIDTH) (pos_y pos)
    end).
  { unfold getNextCoord. destruct d;
      rewrite !rem_wrap by lia; rewrite ?(Z.mod_small (pos_x pos)) by lia;
      rewrite ?(Z.mod_small (pos_y pos)) by lia; reflexivity. }
  split; [| exact E]. rewrite E. apply outOfBounds_false.
  pose proof (Z.mod_pos_bound (pos_y pos - 1) GRID_HEIGHT height_pos).
  pose proof (Z.mod_pos_bound (pos_y pos + 1) GRID_HEIGHT height_pos).
  pose proof (Z.mod_pos_bound (pos_x pos - 1) GRID_WIDTH width_pos).
  pose proof (Z.mod_pos_bound (pos_x pos + 1) GRID_WIDTH width_pos).
  destruct d; simpl; lia.
Qed.

Lemma mod_back (a n : Z) : 0 < n -> 0 <= a < n -> ((a - 1) mod n + 1) mod n = a.
Proof.
  intros Hn Ha. destruct (Z.eq_dec a 0) as [-> | Hne].
  - replace (0 - 1) with (n - 1 + (-1) * n) by lia.
    rewrite Z_mod_plus_full, (Z.mod_small (n - 1)) by lia.
    replace (n - 1 + 1) with (0 + 1 * n) by lia.
    rewrite Z_mod_plus_full. apply Z.mod_small. lia.
  - rewrite (Z.mod_small (a - 1)) by lia.
    replace (a - 1 + 1) with a by lia. apply Z.mod_small. lia.
Qed.

Lemma mod_forth (a n : Z) : 0 < n -> 0 <= a < n -> ((a + 1) mod n - 1) mod n = a.
Proof.
  intros Hn Ha. destruct (Z.eq_dec a (n - 1)) as [-> | Hne].
  - replace (n - 1 + 1) with (0 + 1 * n) by lia.
    rewrite Z_mod_plus_full, (Z.mod_small 0) by lia.
    replace (0 - 1) with (n - 1 + (-1) * n) by lia.
    rewrite Z_mod_plus_full. apply Z.mod_small. lia.
  - rewrite (Z.mod_small (a + 1)) by lia.
    replace (a + 1 - 1) with a by lia. apply Z.mod_small. lia.
Qed.

(** X2. A step followed by the step in the opposite direction leads back:
    always on a walled grid, and from every cell of the board on a wrapping
    grid (also through the edge). *)
Theorem getNextCoord_opposite_leads_back (pos : Pos) (d : Direction)
  (wall : bool) :
  wall = true \/ outOfBounds pos = false ->
  getNextCoord (getNextCoord pos d wall) (opposites d) wall = pos.
Proof.
  intros H. destruct wall.
  - unfold getNextCoord. destruct pos as [x y]. destruct d; simpl; f_equal; lia.
  - destruct H as [H | Hin]; [discriminate |].
    destruct (getNextCoord_wrap_stays_on_board pos d Hin) as [Hin' E].
    destruct (getNextCoord_wrap_stays_on_board _ (opposites d) Hin') as [_ E'].
    rewrite E'. rewrite E. apply outOfBounds_false in Hin.
    destruct Hin as [Hx Hy]. destruct pos as [x y]. simpl in *.
    destruct d; simpl; f_equal;
      auto using mod_back, mod_forth.
Qed.

(** X3. In bounds, the distance the steering loops use is a metric-like
    quantity: it is symmetric, lies between 0 and the plain Manhattan
    distance, is 0 only between a cell and itself, and on a wrapping grid
    never exceeds half the perimeter. *)
Theorem stepDistance_bounds (gs : GameState) (a b : Pos) :
  outOfBounds a = false -> outOfBounds b = false ->
  stepDistance gs a b = stepDistance gs b a /\
  0 <= stepDistance gs a b
    <= Z.abs (pos_x a - pos_x b) + Z.abs (pos_y a - pos_y b) /\
  (stepDistance gs a b = 0 <-> a = b) /\
  (wallMode gs = false ->
   2 * stepDistance gs a b <= GRID_WIDTH + GRID_HEIGHT).
Proof.
  intros Ha Hb. apply outOfBounds_false in Ha, Hb.
  destruct a as [ax ay], b as [bx by_]. cbn [pos_x pos_y] in *.
  unfold stepDistance. cbn [pos_x pos_y]. destruct (wallMode gs); cbn [negb].
  - split; [lia |]. split; [lia |]. split; [| discriminate].
    split; [intros E; f_equal; lia | intros E; inversion E; lia].
  - split; [lia |]. split; [lia |]. split; [| intros _; lia].
    split; [intros E; f_equal; lia | intros E; inversion E; lia].
Qed.

End Coordinates.

(** ** The oracle and the safe-move test, without assumptions *)

(** X4. The safe-move test is the negated oracle at the cell behind the
    move, in every state and with the same failure: its own wall test never
    decides anything the oracle would not. *)
Theorem isMoveImmediatelySafe_is_negated_oracle (head : Pos) (d : Direction)
  (gs : GameState) (myId : string) :
  isMoveImmediatelySafe head d gs myId
  = (b <- isOccupied (getNextCoord head d (wallMode gs)) gs myId ;;
     Ok (negb b)).
Proof.
  unfold isMoveImmediatelySafe, isOccupied.
  destruct (wallMode gs && outOfBounds (getNextCoord head d (wallMode gs)));
    reflexivity.
Qed.

Lemma setHas_snake_split (pos : Pos) (l : list Pos) (tail : Pos) :
  nth_error l (List.length l - 1)%nat = Some tail ->
  setHas pos l
  = existsb (fun seg => samePos seg pos) (firstn (List.length l - 1)%nat l)
    || samePos tail pos.
Proof.
  intros Ht.
  assert (Hl : l <> []) by (intros ->; discriminate).
  destruct (snake_split l Hl) as [tail' [Ht' Hsplit]].
  rewrite Ht in Ht'. inversion Ht'. subst tail'.
  rewrite Hsplit at 1. unfold setHas. rewrite existsb_app. simpl.
  rewrite orb_false_r, (samePos_sym pos tail). f_equal.
  generalize (firstn (List.length l - 1)%nat l).
  intros l0. induction l0 as [| a l0 IH]; simpl; [reflexivity |].
  rewrite IH, (samePos_sym pos a). reflexivity.
Qed.

Lemma occupiedByPlayers_throws_iff (ps : list Player) (pos : Pos) (e : error) :
  occupiedByPlayers ps pos = Err e <->
  e = TypeError /\
  exists before p after,
    ps = before ++ p :: after /\ isAlive p = true /\ snake p = [] /\
    onLivingSnake before pos = false.
Proof.
  induction ps as [| p rest IH]; simpl.
  - split; [discriminate |].
    intros [_ [before [q [after [E _]]]]]. destruct before; discriminate.
  - assert (Shift : forall (skip : isAlive p && setHas pos (snake p) = false)
                           (ok : isAlive p = true -> snake p <> []),
      (e = TypeError /\
       exists before q after,
         rest = before ++ q :: after /\ isAlive q = true /\ snake q = [] /\
         onLivingSnake before pos = false) <->
      (e = TypeError /\
       exists before q after,
         p :: rest = before ++ q :: after /\ isAlive q = true /\
         snake q = [] /\ onLivingSnake before pos = false)).
    { intros skip ok. split; intros [He [before [q [after [E [A [S O]]]]]]];
        (split; [exact He |]).
      - exists (p :: before), q, after. simpl. rewrite E, skip, O. auto.
      - destruct before as [| p' before]; simpl in E; inversion E; subst.
        + exfalso. exact (ok A S).
        + simpl in O. apply orb_false_iff in O. destruct O as [_ O].
          exists before, q, after. auto. }
    assert (Never : isAlive p = true -> setHas pos (snake p) = true ->
      ~ (e = TypeError /\
         exists before q after,
           p :: rest = before ++ q :: after /\ isAlive q = true /\
           snake q = [] /\ onLivingSnake before pos = false)).
    { intros A Hhas [_ [before [q [after [E [Aq [S O]]]]]]].
      destruct before as [| p' before]; simpl in E; inversion E; subst.
      - rewrite S in Hhas. discriminate.
      - simpl in O. rewrite A, Hhas in O. discriminate. }
    destruct (isAlive p) eqn:Alive; cbn [negb].
    + destruct (nth_error (snake p) (List.length (snake p) - 1)%nat)
        as [tail |] eqn:Ht.
      * pose proof (setHas_snake_split pos (snake p) tail Ht) as Hs.
        destruct (existsb _ (firstn _ _)); simpl in Hs.
        { split; [discriminate | intros C; exfalso; exact (Never eq_refl Hs C)]. }
        destruct (samePos tail pos).
        { split; [discriminate | intros C; exfalso; exact (Never eq_refl Hs C)]. }
        rewrite IH. apply Shift.
        -- rewrite Hs. reflexivity.
        -- intros _ E0. rewrite E0 in Ht. discriminate.
      * assert (Hempty : snake p = []).
        { destruct (snake p) as [| s l] eqn:Es; [reflexivity |].
          exfalso. apply nth_error_None in Ht. simpl in Ht. lia. }
        rewrite Hempty. simpl. split.
        -- intros E. inversion E. split; [reflexivity |].
           exists [], p, rest. simpl. auto.
        -- intros [-> _]. reflexivity.
    + rewrite IH. apply Shift; [reflexivity | discriminate].
Qed.

(** X5. The oracle fails, with a [TypeError], exactly when the walled
    out-of-bounds test does not answer and the loop over the players reaches
    a living player without segments before it meets a living snake on the
    position; it fails in no other way. *)
Theorem isOccupied_throws_iff (pos : Pos) (gs : GameState) (myId : string)
  (e : error) :
  isOccupied pos gs myId = Err e <->
  e = TypeError /\
  wallMode gs && outOfBounds pos = false /\
  exists before p after,
    players gs = before ++ p :: after /\ isAlive p = true /\ snake p = [] /\
    onLivingSnake before pos = false.
Proof.
  unfold isOccupied. destruct (wallMode gs && outOfBounds pos).
  - split; [discriminate | intros [_ [C _]]; discriminate].
  - rewrite occupiedByPlayers_throws_iff. tauto.
Qed.

(** ** More on the two searches *)

Section SearchFacts.

Variable gs : GameState.
Variable myId : string.
Hypothesis gs_wf : wellFormed gs.
Hypothesis width_pos : 0 < GRID_WIDTH.
Hypothesis height_pos : 0 < GRID_HEIGHT.

Lemma Route_first_free (start : Pos) (fm : Direction) (d : Z) (p : Pos) :
  Route gs myId start fm d p ->
  isOccupied (next gs start fm) gs myId = Ok false.
Proof. induction 1 as [m F | fm d c m R IH F]; [exact F | exact IH]. Qed.

Lemma free_is_safe (head : Pos) (m : Direction) :
  isOccupied (getNextCoord head m (wallMode gs)) gs myId = Ok false ->
  isMoveImmediatelySafe head m gs myId = Ok true.
Proof.
  intros F. apply isMoveImmediatelySafe_true. split; [| exact F].
  unfold isOccupied in F.
  destruct (wallMode gs && outOfBounds (getNextCoord head m (wallMode gs)));
    [discriminate | reflexivity].
Qed.

(** X6. Whatever path the pathfinder returns, its first move passes the
    safe-move test at the start, and its length lies between 1 and 51: the
    policy's test [safeMoves.includes(pathResult.firstMove)] always
    succeeds. *)
Theorem findPathToClosestFood_first_move_is_safe (startPos : Pos)
  (m : Direction) (d : Z) :
  findPathToClosestFood startPos gs myId = Ok (Some (m, d)) ->
  isMoveImmediatelySafe startPos m gs myId = Ok true /\
  1 <= d <= depthCap + 1.
Proof.
  intros E.
  pose proof (findPath_outcome gs myId gs_wf width_pos height_pos startPos)
    as Out.
  rewrite E in Out. unfold BfsOutcome in Out.
  destruct Out as [Hcap [[p [R _]] _]]. split.
  - apply free_is_safe. exact (Route_first_free _ _ _ _ R).
  - pose proof (Route_dist_pos gs myId _ _ _ _ R). lia.
Qed.

(** X7. The pathfinder answers "no path" exactly when no food cell is the
    end of a route of at most 51 steps; in particular on a board without
    food.  It never fails. *)
Theorem findPathToClosestFood_none_iff (startPos : Pos) :
  (findPathToClosestFood startPos gs myId = Ok None <->
   forall fm d p, Route gs myId startPos fm d p -> In p (food gs) ->
                  depthCap + 1 < d) /\
  (food gs = [] -> findPathToClosestFood startPos gs myId = Ok None) /\
  (forall e, findPathToClosestFood startPos gs myId <> Err e).
Proof.
  pose proof (findPath_outcome gs myId gs_wf width_pos height_pos startPos)
    as Out.
  assert (Iff : findPathToClosestFood startPos gs myId = Ok None <->
   forall fm d p, Route gs myId startPos fm d p -> In p (food gs) ->
                  depthCap + 1 < d).
  { destruct (findPathToClosestFood startPos gs myId)
      as [[[m d] |] | e]; unfold BfsOutcome in Out.
    - split; [discriminate |]. intros Far. exfalso.
      destruct Out as [Hcap [[p [R F]] _]]. apply isFood_In in F.
      pose proof (Far m d p R F). lia.
    - split; [| reflexivity]. intros _ fm d p R F.
      apply (Out fm d p R). apply isFood_In. exact F.
    - contradiction. }
  split; [exact Iff |]. split.
  - intros Hnone. apply Iff. intros fm d p _ F. rewrite Hnone in F.
    contradiction.
  - intros e E. rewrite E in Out. exact Out.
Qed.

(** X8. In the limit, the estimate is monotone and exact below the cap: with
    limits [0 < l1 <= l2] the two results satisfy [1 <= v1 <= l1] and
    [v1 <= v2], and a result below its limit is the result under every
    larger limit. *)
Theorem countAccessibleTiles_monotone_in_limit (startPos : Pos) (l1 l2 : Z) :
  0 < l1 <= l2 ->
  exists v1 v2,
    countAccessibleTiles startPos gs myId l1 = Ok v1 /\
    countAccessibleTiles startPos gs myId l2 = Ok v2 /\
    1 <= v1 <= l1 /\ v1 <= v2 <= l2 /\
    (v1 < l1 -> v2 = v1).
Proof.
  intros Hl.
  destruct (countAccessibleTiles_card gs gs_wf width_pos height_pos
              startPos myId) as [n [Hn Hrun]].
  exists (Z.min l1 n), (Z.min l2 n).
  split; [apply Hrun; lia |]. split; [apply Hrun; lia |]. lia.
Qed.

(** X9. Under a limit of at least 2 the estimate is 1 exactly for a sealed
    cell: every step from it is blocked or leads back to the cell itself. *)
Theorem countAccessibleTiles_one_iff_sealed (c : Pos) (limit : Z) :
  2 <= limit ->
  (countAccessibleTiles c gs myId limit = Ok 1 <->
   forall m, next gs c m = c \/ isOccupied (next gs c m) gs myId = Ok true).
Proof.
  intros Hlim.
  destruct (countAccessibleTiles_spec gs myId gs_wf width_pos height_pos c)
    as [[cells [ND Hcells]] Hrun].
  rewrite (Hrun cells limit ND Hcells ltac:(lia)).
  split.
  - intros E m.
    destruct (samePos (next gs c m) c) eqn:Same;
      [left; apply samePos_eq; exact Same |].
    right. rewrite (isOccupied_ok gs _ myId gs_wf).
    destruct (blocked gs (next gs c m)) eqn:B; [reflexivity |].
    exfalso.
    assert (Hincl : incl [c; next gs c m] cells).
    { intros x [<- | [<- | []]]; apply Hcells.
      - constructor.
      - apply reach_step; [constructor |].
        rewrite (isOccupied_ok gs _ myId gs_wf), B. reflexivity. }
    assert (Hnd : NoDup [c; next gs c m]).
    { repeat constructor; simpl; [| tauto].
      intros [Heq | []]. apply samePos_eq in Heq. congruence. }
    pose proof (NoDup_incl_length Hnd Hincl) as L. simpl in L.
    inversion E. lia.
  - intros Sealed.
    assert (Only : forall x, Reachable gs myId c x -> x = c).
    { intros x R. induction R as [| x m R IH F]; [reflexivity |].
      subst x. destruct (Sealed m) as [Back | B]; [exact Back |].
      rewrite B in F. discriminate. }
    assert (Hlen : List.length cells = 1%nat).
    { apply Permutation_length with (l' := [c]).
      apply NoDup_Permutation; [exact ND | repeat constructor; simpl; tauto |].
      intros x. rewrite Hcells. simpl. split.
      - intros R. left. symmetry. apply Only. exact R.
      - intros [<- | []]. constructor. }
    rewrite Hlen. f_equal. lia.
Qed.

End SearchFacts.

(** ** The steering loops *)

Lemma keepLess_from_best {A : Type} (cost : A -> Z) (l : list A) :
  forall (best : A) (v : Z),
    (fold_left (keepLess cost) l (Some best, Some v) = (Some best, Some v) /\
     forall x, In x l -> v <= cost x) \/
    (exists l1 m l2,
       l = l1 ++ m :: l2 /\
       fold_left (keepLess cost) l (Some best, Some v)
         = (Some m, Some (cost m)) /\
       cost m < v /\
       (forall x, In x l1 -> cost m < cost x) /\
       (forall x, In x l2 -> cost m <= cost x)).
Proof.
  induction l as [| a l IH]; intros best v.
  - left. split; [reflexivity | intros x []].
  - assert (Step : fold_left (keepLess cost) (a :: l) (Some best, Some v)
                   = fold_left (keepLess cost) l
                       (if cost a <? v then (Some a, Some (cost a))
                        else (Some best, Some v))) by reflexivity.
    rewrite Step. clear Step.
    destruct (cost a <? v) eqn:Lt.
    + apply Z.ltb_lt in Lt. right.
      destruct (IH a (cost a)) as [[E Hall] | [l1 [m [l2 [El [E [Hm [H1 H2]]]]]]]].
      * exists [], a, l. split; [reflexivity |]. split; [exact E |].
        split; [exact Lt |]. split; [intros x [] | exact Hall].
      * exists (a :: l1), m, l2. split; [rewrite El; reflexivity |].
        split; [exact E |]. split; [lia |]. split; [| exact H2].
        intros x [<- | Hx]; [exact Hm | apply H1; exact Hx].
    + assert (Ge : v <= cost a).
      { destruct (Z_lt_le_dec (cost a) v) as [C | C]; [| exact C].
        apply Z.ltb_lt in C. congruence. }
      destruct (IH best v) as [[E Hall] | [l1 [m [l2 [El [E [Hm [H1 H2]]]]]]]].
      * left. split; [exact E |].
        intros x [<- | Hx]; [exact Ge | apply Hall; exact Hx].
      * right. exists (a :: l1), m, l2. split; [rewrite El; reflexivity |].
        split; [exact E |]. split; [exact Hm |]. split; [| exact H2].
        intros x [<- | Hx]; [lia | apply H1; exact Hx].
Qed.

Lemma keepLess_first_least {A : Type} (cost : A -> Z) (a : A) (l : list A)
  (o : option A) :
  exists m,
    fold_left (keepLess cost) (a :: l) (o, None) = (Some m, Some (cost m)) /\
    firstLeast cost (a :: l) m.
Proof.
  assert (Step : fold_left (keepLess cost) (a :: l) (o, None)
                 = fold_left (keepLess cost) l (Some a, Some (cost a)))
    by reflexivity.
  rewrite Step. clear Step.
  destruct (keepLess_from_best cost l a (cost a))
    as [[E Hall] | [l1 [m [l2 [El [E [Hm [H1 H2]]]]]]]].
  - exists a. split; [exact E |]. exists [], l.
    split; [reflexivity |]. split; [intros x [] | exact Hall].
  - exists m. split; [exact E |]. exists (a :: l1), l2.
    split; [rewrite El; reflexivity |]. split; [| exact H2].
    intros x [<- | Hx]; [exact Hm | apply H1; exact Hx].
Qed.

(** X10. The target of the fallback is the first food cell of least plain
    Manhattan distance to the head (not folded over the torus, also on a
    wrapping grid); there is no target exactly when there is no food. *)
Theorem pickTargetFood_first_nearest (head : Pos) (gs : GameState) :
  (food gs = [] -> pickTargetFood head gs = None) /\
  (food gs <> [] ->
   exists f,
     pickTargetFood head gs = Some f /\
     firstLeast
       (fun f => Z.abs (pos_x f - pos_x head) + Z.abs (pos_y f - pos_y head))
       (food gs) f).
Proof.
  unfold pickTargetFood. split.
  - intros ->. reflexivity.
  - intros Hne. destruct (food gs) as [| f0 fs]; [contradiction |].
    destruct (keepLess_first_least
                (fun f => Z.abs (pos_x f - pos_x head)
                          + Z.abs (pos_y f - pos_y head))
                f0 fs (nth_error (f0 :: fs) 0)) as [f [E Hf]].
    exists f. split; [| exact Hf].
    change (nearerFood head)
      with (keepLess (fun f => Z.abs (pos_x f - pos_x head)
                               + Z.abs (pos_y f - pos_y head))).
    rewrite E. reflexivity.
Qed.

(** X11. Hot/cold steering returns the first safe move of least distance
    (folded over the torus on a wrapping grid) between the cell behind it
    and the target food; without food it returns the first safe move. *)
Theorem hotColdMove_first_least (head : Pos) (gs : GameState)
  (firstSafe : Direction) (others : list Direction) :
  (food gs = [] ->
   hotColdMove head gs firstSafe (firstSafe :: others) = firstSafe) /\
  (forall target,
     pickTargetFood head gs = Some target ->
     firstLeast
       (fun m => stepDistance gs target (getNextCoord head m (wallMode gs)))
       (firstSafe :: others)
       (hotColdMove head gs firstSafe (firstSafe :: others))).
Proof.
  unfold hotColdMove. split.
  - intros Hnone. unfold pickTargetFood. rewrite Hnone. reflexivity.
  - intros target ->.
    destruct (keepLess_first_least
                (fun m => stepDistance gs target
                            (getNextCoord head m (wallMode gs)))
                firstSafe others (Some firstSafe)) as [m [E Hm]].
    change (closerStep gs head target)
      with (keepLess (fun m => stepDistance gs target
                                 (getNextCoord head m (wallMode gs)))).
    rewrite E. exact Hm.
Qed.

(** ** The difficulty table, the counter and the draws *)

Lemma reactionDelay_range (d : Difficulty) :
  0 <= reactionDelayFrames (getDifficultySettings d) <= 10.
Proof.
  unfold getDifficultySettings.
  destruct (String.eqb d easy), (String.eqb d medium), (String.eqb d hard);
    simpl; lia.
Qed.

Lemma fallbackMove_draws (rand : nat -> Q) (k : nat) (settings : Settings)
  (head : Pos) (gs : GameState) (player : Player) (firstSafe : Direction)
  (safeMoves : list Direction) :
  (k <= snd (fallbackMove rand k settings head gs player firstSafe safeMoves)
     <= S k)%nat.
Proof.
  unfold fallbackMove.
  destruct (negb (usePathfinding settings) && _);
    [destruct (Qltb (rand k) (6 # 10)) |]; simpl; lia.
Qed.

(** The three ways a call of the policy can end. *)
Lemma decideNPCMove_shape (rand : nat -> Q) (npc : NPC) (gs : GameState)
  (player : Player) (k : nat) (r : option Direction) (npc' : NPC) (k' : nat) :
  decideNPCMove rand npc gs player k = Ok (r, npc', k') ->
  (r = None /\ npc' = npc /\ k' = k /\
   (isAlive player = false \/ snake player = [])) \/
  (r = None /\ 0 < decisionDelay npc /\ k' = k /\
   npc' = setDecisionDelay npc (decisionDelay npc - 1)) \/
  (decisionDelay npc <= 0 /\ (k <= k' <= k + 2)%nat /\
   npc' = setDecisionDelay npc
            (reactionDelayFrames
               (getDifficultySettings (effectiveDifficulty npc player)))).
Proof.
  unfold decideNPCMove.
  destruct (snake player) as [| head rest].
  { intros E. inversion E. left. auto. }
  destruct (isAlive player); cbn [negb].
  2:{ intros E. inversion E. left. auto. }
  destruct (decisionDelay npc >? 0) eqn:Gate.
  { apply Z.gtb_lt in Gate. intros E. inversion E. right. left. auto. }
  assert (Hle : decisionDelay npc <= 0).
  { destruct (Z_lt_le_dec 0 (decisionDelay npc)) as [C | C]; [| exact C].
    apply Z.gtb_lt in C. congruence. }
  assert (Fin : forall (r0 : option Direction) (k0 : nat),
            (k <= k0 <= k + 2)%nat ->
            Ok (r0, setDecisionDelay npc
                      (reactionDelayFrames
                         (getDifficultySettings
                            (effectiveDifficulty npc player))), k0)
            = Ok (r, npc', k') ->
            (r = None /\ npc' = npc /\ k' = k /\
             (true = false \/ head :: rest = [])) \/
            (r = None /\ 0 < decisionDelay npc /\ k' = k /\
             npc' = setDecisionDelay npc (decisionDelay npc - 1)) \/
            (decisionDelay npc <= 0 /\ (k <= k' <= k + 2)%nat /\
             npc' = setDecisionDelay npc
                      (reactionDelayFrames
                         (getDifficultySettings
                            (effectiveDifficulty npc player))))).
  { intros r0 k0 Hk E. inversion E. subst. right. right. auto. }
  destruct (filterSafe head gs (player_id player) possibleMoves)
    as [safe |]; cbn [bind]; [| discriminate].
  destruct safe as [| firstSafe others]; [apply Fin; lia |].
  destruct (Qltb (rand k) _); [apply Fin; lia |].
  pose proof (fallbackMove_draws rand (S k)
                (getDifficultySettings (effectiveDifficulty npc player))
                head gs player firstSafe (firstSafe :: others)) as Hfk.
  destruct (fallbackMove rand (S k) _ head gs player firstSafe
              (firstSafe :: others)) as [fm fk]. cbn [snd] in Hfk.
  destruct (usePathfinding _); [| apply Fin; lia].
  destruct (foodPathMove _ head gs player (firstSafe :: others))
    as [[bestMove |] |]; cbn [bind]; try discriminate; [apply Fin; lia |].
  destruct (safetyCheck _); [| apply Fin; lia].
  destruct (survivalMove head gs player (firstSafe :: others)) as [m |];
    cbn [bind]; [apply Fin; lia | discriminate].
Qed.

Lemma getNPC_Forall (P : NPC -> Prop) (id : string) (npcs : Agents)
  (npc : NPC) :
  Forall (fun a => P (snd a)) npcs -> getNPC id npcs = Some npc -> P npc.
Proof.
  induction 1 as [| [key n] l Hn Hl IH]; simpl; [discriminate |].
  destruct (String.eqb key id); [| exact IH].
  intros E. inversion E. subst. exact Hn.
Qed.

Lemma putNPC_Forall (P : NPC -> Prop) (id : string) (npc' : NPC)
  (npcs : Agents) :
  P npc' -> Forall (fun a => P (snd a)) npcs ->
  Forall (fun a => P (snd a)) (putNPC id npc' npcs).
Proof.
  intros Hn. induction 1 as [| [key n] l Hk Hl IH]; simpl; [constructor |].
  destruct (String.eqb key id); constructor; auto.
Qed.

Lemma processLoop_inv (rand : nat -> Q) (wall : bool) (foods : list Pos)
  (P : NPC -> Prop) :
  (forall npc gs player k r npc' k',
     P npc -> decideNPCMove rand npc gs player k = Ok (r, npc', k') ->
     P npc') ->
  forall todo done npcs k log ps npcs' k' log',
    Forall (fun a => P (snd a)) npcs ->
    processLoop rand wall foods done todo npcs k log
      = Ok (ps, npcs', k', log') ->
    Forall (fun a => P (snd a)) npcs' /\
    (k <= k' <= k + 2 * List.length (filter consulted todo))%nat.
Proof.
  intros Hstep.
  induction todo as [| p rest IH]; intros done npcs k log ps npcs' k' log' HP E;
    cbn [processLoop] in E.
  - inversion E. subst. simpl. split; [exact HP | lia].
  - rewrite <- negb_andb in E. fold (consulted p) in E. cbn [filter].
    destruct (consulted p); cbn [negb] in E.
    + destruct (getNPC (player_id p) npcs) as [npc |] eqn:Hget.
      * destruct (decideNPCMove rand npc _ p k) as [[[proposal npc1] k1] |]
          eqn:Hdec; cbn [bind] in E; [| discriminate].
        pose proof (Hstep _ _ _ _ _ _ _ (getNPC_Forall P _ _ _ HP Hget) Hdec)
          as HP1.
        destruct (decideNPCMove_shape _ _ _ _ _ _ _ _ Hdec)
          as [[_ [_ [Hk _]]] | [[_ [_ [Hk _]]] | [_ [Hk _]]]];
          destruct (IH _ _ _ _ _ _ _ _ (putNPC_Forall P _ _ _ HP1 HP) E)
            as [HP' Hk'];
          (split; [exact HP' | simpl; lia]).
      * destruct (IH _ _ _ _ _ _ _ _ HP E) as [HP' Hk'].
        split; [exact HP' | simpl; lia].
    + apply (IH _ _ _ _ _ _ _ _ HP E).
Qed.

(** X12. The reaction-delay counter stays in range: for an agent of one of
    the three tiers, a call of the policy on a non-negative counter leaves
    it non-negative and at most the larger of its old value and 10, and a
    tick keeps the tiers known and the counters of all agents
    non-negative. *)
Theorem decisionDelay_never_negative :
  (forall rand npc gs player k r npc' k',
     knownTier (difficulty npc) ->
     decideNPCMove rand npc gs player k = Ok (r, npc', k') ->
     0 <= decisionDelay npc ->
     0 <= decisionDelay npc' <= Z.max (decisionDelay npc) 10) /\
  (forall rand gs npcs k gs' npcs' k',
     processNPCInputs rand gs npcs k = Ok (gs', npcs', k') ->
     Forall (fun a => knownTier (difficulty (snd a)) /\
                      0 <= decisionDelay (snd a)) npcs ->
     Forall (fun a => knownTier (difficulty (snd a)) /\
                      0 <= decisionDelay (snd a)) npcs').
Proof.
  assert (Step : forall rand npc gs player k r npc' k',
     decideNPCMove rand npc gs player k = Ok (r, npc', k') ->
     0 <= decisionDelay npc ->
     difficulty npc' = difficulty npc /\
     0 <= decisionDelay npc' <= Z.max (decisionDelay npc) 10).
  { intros rand npc gs player k r npc' k' E Hpos.
    pose proof (reactionDelay_range (effectiveDifficulty npc player)).
    destruct (decideNPCMove_shape _ _ _ _ _ _ _ _ E)
      as [[_ [-> _]] | [[_ [Hgt [_ ->]]] | [_ [_ ->]]]];
      (split; [reflexivity | simpl; lia]). }
  split.
  { intros rand npc gs player k r npc' k' _ E Hpos.
    apply (Step _ _ _ _ _ _ _ _ E Hpos). }
  intros rand gs npcs k gs' npcs' k' E HP.
  unfold processNPCInputs, processNPCInputsLog in E.
  destruct (processLoop rand (wallMode gs) (food gs) [] (players gs) npcs k [])
    as [[[[ps npcs1] k1] log1] |] eqn:El; cbn [bind] in E; [| discriminate].
  inversion E. subst.
  refine (proj1 (processLoop_inv rand _ _
                   (fun n => knownTier (difficulty n) /\ 0 <= decisionDelay n)
                   _ _ _ _ _ _ _ _ _ _ HP El)).
  intros npc gs0 player k0 r npc' k0' [Hn Hd] Hdec.
  destruct (Step _ _ _ _ _ _ _ _ Hdec Hd) as [Hsame Hrange].
  split; [rewrite Hsame; exact Hn | lia].
Qed.

(** X13. A call of the policy reads at most the two draws at positions [k]
    and [k + 1]: sources that agree there give the same result, and the
    position advances by at most two per call, hence by at most two per
    living bot in a tick. *)
Theorem decideNPCMove_reads_at_most_two_draws :
  (forall r1 r2 npc gs player k,
     r1 k = r2 k -> r1 (S k) = r2 (S k) ->
     decideNPCMove r1 npc gs player k = decideNPCMove r2 npc gs player k) /\
  (forall rand npc gs player k r npc' k',
     decideNPCMove rand npc gs player k = Ok (r, npc', k') ->
     (k <= k' <= k + 2)%nat) /\
  (forall rand gs npcs k gs' npcs' k',
     processNPCInputs rand gs npcs k = Ok (gs', npcs', k') ->
     (k <= k' <= k + 2 * List.length (filter consulted (players gs)))%nat).
Proof.
  split; [| split].
  - intros r1 r2 npc gs player k H0 H1.
    unfold decideNPCMove, fallbackMove. rewrite H0, H1. reflexivity.
  - intros rand npc gs player k r npc' k' E.
    destruct (decideNPCMove_shape _ _ _ _ _ _ _ _ E)
      as [[_ [_ [-> _]]] | [[_ [_ [-> _]]] | [_ [Hk _]]]]; lia.
  - intros rand gs npcs k gs' npcs' k' E.
    unfold processNPCInputs, processNPCInputsLog in E.
    destruct (processLoop rand (wallMode gs) (food gs) [] (players gs) npcs k [])
      as [[[[ps npcs1] k1] log1] |] eqn:El; cbn [bind] in E; [| discriminate].
    inversion E. subst.
    refine (proj2 (processLoop_inv rand _ _ (fun _ => True)
                     _ _ _ _ _ _ _ _ _ _ _ El)).
    + auto.
    + clear. induction npcs; constructor; auto.
Qed.

(** X14. An agent holds its decision for as many consultations as its
    counter says: consulted [n] times in a row with counter [n], for living
    players with at least one segment, it proposes nothing, reads no draw
    and never fails, whatever the game states are, and ends with counter 0,
    ready to decide. *)
Theorem consultEach_holds_for_delay (rand : nat -> Q)
  (ticks : list (GameState * Player)) :
  forall (npc : NPC) (k : nat),
    decisionDelay npc = Z.of_nat (List.length ticks) ->
    Forall (fun t => isAlive (snd t) = true /\ snake (snd t) <> []) ticks ->
    consultEach rand npc ticks k
      = Ok (repeat None (List.length ticks), setDecisionDelay npc 0, k).
Proof.
  induction ticks as [| [gs player] rest IH]; intros npc k Hdelay Hticks.
  - simpl in *. destruct npc. simpl in *. subst. reflexivity.
  - inversion Hticks as [| t l [Halive Hsnake] Hrest]; subst.
    cbn [snd] in *. cbn [consultEach].
    assert (Hdec : decideNPCMove rand npc gs player k
                   = Ok (None, setDecisionDelay npc (decisionDelay npc - 1), k)).
    { unfold decideNPCMove.
      destruct (snake player) as [| head body]; [contradiction |].
      rewrite Halive. cbn [negb].
      assert (G : (decisionDelay npc >? 0) = true).
      { apply Z.gtb_lt. rewrite Hdelay. simpl List.length. lia. }
      rewrite G. reflexivity. }
    rewrite Hdec. cbn [bind].
    rewrite (IH (setDecisionDelay npc (decisionDelay npc - 1)) k).
    + reflexivity.
    + cbn [decisionDelay setDecisionDelay]. rewrite Hdelay.
      simpl List.length. lia.
    + exact Hrest.
Qed.

Lemma processLoop_skips (rand : nat -> Q) (wall : bool) (foods : list Pos) :
  forall todo done npcs k log,
    (forall p, In p todo -> consulted p = true ->
               getNPC (player_id p) npcs = None) ->
    processLoop rand wall foods done todo npcs k log
      = Ok (done ++ todo, npcs, k, log).
Proof.
  induction todo as [| p rest IH]; intros done npcs k log Hskip;
    cbn [processLoop].
  - rewrite app_nil_r. reflexivity.
  - rewrite <- negb_andb. fold (consulted p).
    assert (E : done ++ p :: rest = (done ++ [p]) ++ rest)
      by (rewrite <- app_assoc; reflexivity).
    rewrite E.
    destruct (consulted p) eqn:Hc; cbn [negb].
    + rewrite (Hskip p (or_introl eq_refl) Hc).
      apply IH. intros q Hq. apply Hskip. right. exact Hq.
    + apply IH. intros q Hq. apply Hskip. right. exact Hq.
Qed.

(** X15. A tick in which no living bot has an agent in the map (no bots, an
    empty map, or only agents of other players) changes nothing and reads no
    draw; it cannot fail, whatever the state. *)
Theorem processNPCInputs_without_agents (rand : nat -> Q) (gs : GameState)
  (npcs : Agents) (k : nat) :
  (forall p, In p (players gs) -> player_type p = "npc"%string ->
             isAlive p = true -> getNPC (player_id p) npcs = None) ->
  processNPCInputs rand gs npcs k = Ok (gs, npcs, k).
Proof.
  intros Hskip. unfold processNPCInputs, processNPCInputsLog.
  rewrite processLoop_skips.
  - cbn [bind app]. destruct gs. reflexivity.
  - intros p Hin Hc. destruct (consulted_true p Hc) as [Ht Ha].
    apply Hskip; assumption.
Qed.

(** ** Survival mode, liveness and the partial check of the middle tier *)

Lemma filter_nil_all {A : Type} (f : A -> bool) (l : list A) :
  filter f l = [] -> forall x, In x l -> f x = false.
Proof.
  induction l as [| a l IH]; simpl; [intros _ x [] |].
  destruct (f a) eqn:Fa; [discriminate |].
  intros E x [<- | Hx]; [exact Fa | apply IH; assumption].
Qed.

Lemma pickAt_valid (l : list Direction) (q : Q) :
  validDraw q -> l <> [] ->
  exists d,
    pickAt l (Qfloor (q * inject_Z (Z.of_nat (List.length l)))) = Some d.
Proof.
  intros [Hq0 Hq1] Hl.
  set (n := Z.of_nat (List.length l)).
  assert (Hn : 0 < n) by (destruct l; [contradiction | unfold n; simpl; lia]).
  assert (Hn' : (0 < inject_Z n)%Q) by (change (inject_Z 0 < inject_Z n)%Q; rewrite <- Zlt_Qlt; exact Hn).
  assert (Lo : 0 <= Qfloor (q * inject_Z n)).
  { change 0 with (Qfloor 0). apply Qfloor_resp_le.
    apply Qmult_le_0_compat; [exact Hq0 | apply Qlt_le_weak; exact Hn']. }
  assert (Hi : Qfloor (q * inject_Z n) < n).
  { rewrite Zlt_Qlt. apply Qle_lt_trans with (y := (q * inject_Z n)%Q).
    - apply Qfloor_le.
    - rewrite <- (Qmult_1_l (inject_Z n)) at 2.
      apply Qmult_lt_r; assumption. }
  unfold pickAt.
  destruct (Qfloor (q * inject_Z n) <? 0) eqn:Neg.
  { apply Z.ltb_lt in Neg.
    destruct (Z.lt_irrefl 0 (Z.le_lt_trans _ _ _ Lo Neg)). }
  destruct (nth_error l (Z.to_nat (Qfloor (q * inject_Z n)))) as [d |] eqn:E.
  - exists d. reflexivity.
  - apply nth_error_None in E.
    assert (Hi' : Qfloor (q * inject_Z n) < Z.of_nat (List.length l))
      by exact Hi.
    clearbody n. lia.
Qed.

Section PolicyFacts.

Variable gs : GameState.
Hypothesis gs_wf : wellFormed gs.
Hypothesis width_pos : 0 < GRID_WIDTH.
Hypothesis height_pos : 0 < GRID_HEIGHT.

Lemma survivalMove_spec (head tail : Pos) (player : Player)
  (firstSafe : Direction) (others : list Direction) :
  nth_error (snake player) (List.length (snake player) - 1)%nat = Some tail ->
  exists b vb,
    In b (firstSafe :: others) /\
    countAccessibleTiles (getNextCoord head b (wallMode gs)) gs
      (player_id player) 100 = Ok vb /\
    (forall m, In m (firstSafe :: others) ->
       exists v, countAccessibleTiles (getNextCoord head m (wallMode gs)) gs
                   (player_id player) 100 = Ok v /\ v <= vb) /\
    (snakeLength player <= vb ->
     survivalMove head gs player (firstSafe :: others) = Ok (Some b)) /\
    (vb < snakeLength player ->
     exists m,
       survivalMove head gs player (firstSafe :: others) = Ok (Some m) /\
       firstLeast
         (fun m => stepDistance gs tail (getNextCoord head m (wallMode gs)))
         (firstSafe :: others) m).
Proof.
  intros Htail.
  destruct (spaceLoop_total gs gs_wf width_pos height_pos head player
              (firstSafe :: others) (None, -1)) as [[best maxSpace] E].
  destruct (spaceLoop_max gs head player _ _ _ E) as [_ [Hall Hbest]].
  cbn [fst snd] in *.
  destruct Hbest as [Heq | [b [Hb [Hf Hc]]]].
  - exfalso. inversion Heq. subst.
    destruct (Hall firstSafe (or_introl eq_refl)) as [v [Ev Hv]].
    destruct (countAccessibleTiles_total gs gs_wf width_pos height_pos
                (getNextCoord head firstSafe (wallMode gs)) (player_id player)
                100 ltac:(lia)) as [v' [Ev' Hv']].
    rewrite Ev in Ev'. inversion Ev'. lia.
  - subst best. exists b, maxSpace.
    split; [exact Hb |]. split; [exact Hc |]. split; [exact Hall |].
    unfold survivalMove. rewrite E. cbn [bind]. split.
    + intros Hroom. apply Z.geb_le in Hroom. rewrite Hroom. reflexivity.
    + intros Hsmall.
      assert (Hno : (maxSpace >=? snakeLength player) = false).
      { destruct (maxSpace >=? snakeLength player) eqn:G; [| reflexivity].
        apply Z.geb_le in G. lia. }
      rewrite Hno, Htail.
      destruct (keepLess_first_least
                  (fun m => stepDistance gs tail
                              (getNextCoord head m (wallMode gs)))
                  firstSafe others None) as [m [Em Hm]].
      exists m. split; [| exact Hm].
      change (closerStep gs head tail)
        with (keepLess (fun m => stepDistance gs tail
                                   (getNextCoord head m (wallMode gs)))).
      rewrite Em. reflexivity.
Qed.

(** X16. Survival mode, given the safe moves and the last segment [tail]:
    some safe move [b] has the largest room under the cap of 100; when that
    room holds the snake the mode returns [b], and otherwise it returns the
    first safe move of least distance between the cell behind it and the
    tail.  It always returns a move. *)
Theorem survivalMove_max_room_or_tail_chase (head tail : Pos)
  (player : Player) (firstSafe : Direction) (others : list Direction) :
  nth_error (snake player) (List.length (snake player) - 1)%nat = Some tail ->
  exists b vb,
    In b (firstSafe :: others) /\
    countAccessibleTiles (getNextCoord head b (wallMode gs)) gs
      (player_id player) 100 = Ok vb /\
    (forall m, In m (firstSafe :: others) ->
       exists v, countAccessibleTiles (getNextCoord head m (wallMode gs)) gs
                   (player_id player) 100 = Ok v /\ v <= vb) /\
    (snakeLength player <= vb ->
     survivalMove head gs player (firstSafe :: others) = Ok (Some b)) /\
    (vb < snakeLength player ->
     exists m,
       survivalMove head gs player (firstSafe :: others) = Ok (Some m) /\
       firstLeast
         (fun m => stepDistance gs tail (getNextCoord head m (wallMode gs)))
         (firstSafe :: others) m).
Proof. exact (survivalMove_spec head tail player firstSafe others). Qed.

(** X17. Outside the delay gate, for a living player with a snake and draws
    in [0, 1), the policy returns, and it proposes no direction exactly when
    none of the four moves is safe: it never gives up while a safe move
    exists, at any tier. *)
Theorem decideNPCMove_proposes_iff_some_move_is_safe (rand : nat -> Q)
  (npc : NPC) (player : Player) (k : nat) (head : Pos) (rest : list Pos) :
  isAlive player = true ->
  snake player = head :: rest ->
  decisionDelay npc <= 0 ->
  validDraw (rand k) -> validDraw (rand (S k)) ->
  exists r npc' k',
    decideNPCMove rand npc gs player k = Ok (r, npc', k') /\
    (r = None <->
     forall m, isMoveImmediatelySafe head m gs (player_id player) = Ok false).
Proof.
  intros Halive Hsnake Hdelay Hd0 Hd1.
  assert (Htail : exists tail,
            nth_error (snake player) (List.length (snake player) - 1)%nat
            = Some tail).
  { destruct (snake_split (snake player)) as [tail [Ht _]];
      [rewrite Hsnake; discriminate | exists tail; exact Ht]. }
  destruct Htail as [tail Htail].
  unfold decideNPCMove. rewrite Hsnake, Halive. cbn [negb].
  assert (Hgate : (decisionDelay npc >? 0) = false).
  { destruct (decisionDelay npc >? 0) eqn:G; [| reflexivity].
    apply Z.gtb_lt in G. lia. }
  rewrite Hgate, (filterSafe_ok gs gs_wf). cbn [bind].
  destruct (filter _ possibleMoves) as [| firstSafe others] eqn:Hsafe.
  - eexists _, _, _. split; [reflexivity |]. split; [| reflexivity].
    intros _ m. rewrite (isMoveImmediatelySafe_ok gs gs_wf). f_equal.
    apply (filter_nil_all _ _ Hsafe). apply all_moves.
  - assert (Some_ : forall (d : Direction) (n : NPC) (k0 : nat),
              exists r npc' k',
                Ok (Some d, n, k0) = Ok (r, npc', k') /\
                (r = None <->
                 forall m, isMoveImmediatelySafe head m gs (player_id player)
                           = Ok false)).
    { intros d n k0. eexists _, _, _. split; [reflexivity |].
      split; [discriminate |]. intros Hnone. exfalso.
      assert (Hin : In firstSafe (firstSafe :: others)) by (left; reflexivity).
      rewrite <- Hsafe in Hin. apply filter_In in Hin. destruct Hin as [_ Hf].
      specialize (Hnone firstSafe).
      rewrite (isMoveImmediatelySafe_ok gs gs_wf), Hf in Hnone.
      discriminate. }
    destruct (Qltb (rand k) _).
    { destruct (pickAt_valid (firstSafe :: others) (rand (S k)) Hd1
                  ltac:(discriminate)) as [d ->]. apply Some_. }
    destruct (fallbackMove rand (S k) _ head gs player firstSafe
                (firstSafe :: others)) as [fm fk].
    destruct (usePathfinding _); [| apply Some_].
    destruct (foodPathMove_total gs gs_wf width_pos height_pos
                (getDifficultySettings (effectiveDifficulty npc player))
                head player (firstSafe :: others)) as [c ->].
    { unfold snakeLength. rewrite Hsnake. simpl. lia. }
    cbn [bind]. destruct c as [bestMove |]; [apply Some_ |].
    destruct (safetyCheck _); [| apply Some_].
    destruct (survivalMove_spec head tail player firstSafe others Htail)
      as [b [vb [_ [_ [_ [Hroom Hchase]]]]]].
    destruct (Z_lt_le_dec vb (snakeLength player)) as [Hlt | Hle].
    + destruct (Hchase Hlt) as [m [-> _]]. cbn [bind]. apply Some_.
    + rewrite (Hroom Hle). cbn [bind]. apply Some_.
Qed.

(** X18. The partial check of the middle tier caps the room at 20 and asks
    for half the snake length, so it fails for every snake of more than 40
    segments: an agent stored at the lowest tier, which plays at the middle
    tier from 21 segments on, then never follows the path the pathfinder
    returns, but steers hot/cold whenever the draw does not trigger a random
    move. *)
Theorem long_lowest_tier_snakes_never_follow_the_path (rand : nat -> Q)
  (npc : NPC) (player : Player) (k : nat) (head : Pos) (rest : list Pos)
  (firstSafe : Direction) (others : list Direction) :
  difficulty npc = easy ->
  40 < snakeLength player ->
  isAlive player = true ->
  snake player = head :: rest ->
  decisionDelay npc <= 0 ->
  (5 # 100 <= rand k)%Q ->
  filterSafe head gs (player_id player) possibleMoves
    = Ok (firstSafe :: others) ->
  decideNPCMove rand npc gs player k
  = Ok (Some (hotColdMove head gs firstSafe (firstSafe :: others)),
        setDecisionDelay npc 4, S k).
Proof.
  intros Heasy Hlen Halive Hsnake Hdelay Hdraw Hsafe.
  assert (Hset : getDifficultySettings (effectiveDifficulty npc player)
                 = mkSettings 4 (5 # 100) true false).
  { unfold effectiveDifficulty.
    assert (L20 : (snakeLength player >? 20) = true) by (apply Z.gtb_lt; lia).
    rewrite L20, Heasy. reflexivity. }
  unfold decideNPCMove. rewrite Hsnake, Halive, Hset. cbn [negb].
  assert (Hgate : (decisionDelay npc >? 0) = false).
  { destruct (decisionDelay npc >? 0) eqn:G; [| reflexivity].
    apply Z.gtb_lt in G. lia. }
  rewrite Hgate, Hsafe. cbn [bind].
  cbn [errorChance usePathfinding safetyCheck reactionDelayFrames].
  assert (Hno : Qltb (rand k) (5 # 100) = false).
  { unfold Qltb. apply negb_false_iff. apply Qle_bool_iff. exact Hdraw. }
  rewrite Hno.
  assert (Hfood : foodPathMove (mkSettings 4 (5 # 100) true false) head gs
                    player (firstSafe :: others) = Ok None).
  { unfold foodPathMove.
    destruct (findPathToClosestFood_total gs gs_wf width_pos height_pos head
                (player_id player)) as [p ->].
    cbn [bind]. destruct p as [[bestMove dist] |]; [| reflexivity].
    destruct (includes bestMove (firstSafe :: others)); [| reflexivity].
    cbn [safetyCheck].
    destruct (countAccessibleTiles_total gs gs_wf width_pos height_pos
                (getNextCoord head bestMove (wallMode gs)) (player_id player)
                20 ltac:(lia)) as [v [-> Hv]].
    cbn [bind].
    destruct (2 * v >=? snakeLength player) eqn:G; [| reflexivity].
    apply Z.geb_le in G. lia. }
  rewrite Hfood. cbn [bind]. unfold fallbackMove.
  cbn [usePathfinding negb andb]. reflexivity.
Qed.

End PolicyFacts.

(** ** The tick as a sequence of policy calls *)






Section Tick.

Hypothesis width_pos : 0 < GRID_WIDTH.
Hypothesis height_pos : 0 < GRID_HEIGHT.






End Tick.

End Grid.

(** * The properties on concrete game states *)

Local Open Scope string_scope.

(** ** A 10 x 10 walled board: head at (5,5), one food at (5,0) *)

Lemma demoState_wf : wellFormed demoState.
Proof. repeat constructor; intros _; discriminate. Qed.

Lemma demo_route :
  Route 10 10 demoState "bot" (mkPos 5 5) Up 5 (mkPos 5 0).
Proof.
  assert (R1 : Route 10 10 demoState "bot" (mkPos 5 5) Up 1 (mkPos 5 4))
    by (exact (route_first 10 10 demoState "bot" (mkPos 5 5) Up eq_refl)).
  assert (R2 : Route 10 10 demoState "bot" (mkPos 5 5) Up 2 (mkPos 5 3))
    by (exact (route_step 10 10 demoState "bot" (mkPos 5 5) Up 1 (mkPos 5 4)
                 Up R1 eq_refl)).
  assert (R3 : Route 10 10 demoState "bot" (mkPos 5 5) Up 3 (mkPos 5 2))
    by (exact (route_step 10 10 demoState "bot" (mkPos 5 5) Up 2 (mkPos 5 3)
                 Up R2 eq_refl)).
  assert (R4 : Route 10 10 demoState "bot" (mkPos 5 5) Up 4 (mkPos 5 1))
    by (exact (route_step 10 10 demoState "bot" (mkPos 5 5) Up 3 (mkPos 5 2)
                 Up R3 eq_refl)).
  exact (route_step 10 10 demoState "bot" (mkPos 5 5) Up 4 (mkPos 5 1)
           Up R4 eq_refl).
Qed.

Example demo_path :
  findPathToClosestFood 10 10 (mkPos 5 5) demoState "bot" = Ok (Some (Up, 5)).
Proof. vm_compute. reflexivity. Qed.

Example demo_decision :
  decideNPCMove 10 10 halves (createNPC "bot" "Bot 1" hard) demoState demoBot 0
  = Ok (Some Up, createNPC "bot" "Bot 1" hard, 1%nat).
Proof. vm_compute. reflexivity. Qed.

(** Wrapping board, head at (0,0), food at (9,0): the fallback steers left,
    through the edge. *)
Example wrap_fallback_goes_left :
  hotColdMove 10 10 (mkPos 0 0)
    (mkGameState false
       [mkPlayer "bot" "npc" true [mkPos 0 0; mkPos 0 1] Up Up] [mkPos 9 0])
    Up [Up; Left; Right] = Left.
Proof. vm_compute. reflexivity. Qed.

Lemma isOccupied_witness :
  exists b, isOccupied 10 10 (mkPos 5 6) demoState "bot" = Ok b /\
    (b = true <->
       (wallMode demoState = true /\
        (pos_x (mkPos 5 6) < 0 \/ 10 <= pos_x (mkPos 5 6) \/
         pos_y (mkPos 5 6) < 0 \/ 10 <= pos_y (mkPos 5 6))) \/
       (exists p, In p (players demoState) /\ isAlive p = true /\
                  In (mkPos 5 6) (snake p))).
Proof.
  exact (isOccupied_iff_wall_or_living_snake 10 10 demoState (mkPos 5 6) "bot"
           demoState_wf).
Defined.

Lemma countAccessibleTiles_witness :
  (exists cells, NoDup cells /\
     forall c, In c cells <-> Reachable 10 10 demoState "bot" (mkPos 5 4) c) /\
  (forall (cells : list Pos) (limit : Z),
     NoDup cells ->
     (forall c, In c cells <-> Reachable 10 10 demoState "bot" (mkPos 5 4) c) ->
     0 < limit ->
     countAccessibleTiles 10 10 (mkPos 5 4) demoState "bot" limit
       = Ok (Z.min limit (Z.of_nat (List.length cells))) /\
     forall moves, Permutation possibleMoves moves ->
       countAccessibleTilesIn 10 10 moves (mkPos 5 4) demoState "bot" limit
       = countAccessibleTiles 10 10 (mkPos 5 4) demoState "bot" limit).
Proof.
  apply (countAccessibleTiles_is_min_of_limit_and_reachable 10 10 demoState
           "bot" demoState_wf); lia.
Defined.

Lemma findPath_shortest_witness :
  exists firstMove dist,
    findPathToClosestFood 10 10 (mkPos 5 5) demoState "bot"
      = Ok (Some (firstMove, dist)) /\
    (exists p, Route 10 10 demoState "bot" (mkPos 5 5) firstMove dist p /\
               In p (food demoState)) /\
    (forall fm' d' p',
       Route 10 10 demoState "bot" (mkPos 5 5) fm' d' p' ->
       In p' (food demoState) ->
       dist <= d' /\ (d' = dist -> rank firstMove <= rank fm')).
Proof.
  apply (findPathToClosestFood_shortest_first_discovered 10 10 demoState "bot"
           demoState_wf); [lia | lia |].
  exists Up, 5, (mkPos 5 0).
  split; [exact demo_route |]. split; [left; reflexivity |].
  unfold depthCap. lia.
Defined.

Lemma decideNPCMove_safe_witness :
  exists head,
    nth_error (snake demoBot) 0 = Some head /\
    isMoveImmediatelySafe 10 10 head Up demoState (player_id demoBot) = Ok true /\
    (wallMode demoState = true ->
     outOfBounds 10 10 (getNextCoord 10 10 head Up (wallMode demoState)) = false) /\
    isOccupied 10 10 (getNextCoord 10 10 head Up (wallMode demoState)) demoState
      (player_id demoBot) = Ok false.
Proof.
  apply (decideNPCMove_only_proposes_safe_moves 10 10 halves
           (createNPC "bot" "Bot 1" hard) demoState demoBot 0 Up
           (createNPC "bot" "Bot 1" hard) 1).
  vm_compute. reflexivity.
Defined.

(** The bot of [turnState] heads down and the policy proposes up, the
    opposite: the tick leaves the pending direction, left, as it was. *)
Example turnState_reversal_is_dropped :
  decideNPCMove 10 10 halves hardAgent turnState turnBot 0
    = Ok (Some Up, hardAgent, 1%nat) /\
  Some Up = Some (opposites (direction turnBot)) /\
  processNPCInputs 10 10 halves turnState demoAgents 0
    = Ok (turnState, demoAgents, 1%nat).
Proof. repeat split; vm_compute; reflexivity. Qed.




Lemma frame_witness :
  exists gs' npcs' k',
    processNPCInputs 10 10 halves demoState demoAgents 0 = Ok (gs', npcs', k') /\
    wallMode gs' = wallMode demoState /\
    food gs' = food demoState /\
    Forall2
      (fun p p' =>
         p' = setNextDirection p (nextDirection p') /\
         (player_type p <> "npc" \/ isAlive p = false -> p' = p))
      (players demoState) (players gs') /\
    Forall2
      (fun a a' =>
         fst a' = fst a /\
         snd a' = setDecisionDelay (snd a) (decisionDelay (snd a')))
      demoAgents npcs' /\
    (forall id,
       (forall p, In p (players demoState) -> player_type p = "npc" ->
                  isAlive p = true -> player_id p <> id) ->
       getNPC id npcs' = getNPC id demoAgents).
Proof.
  apply (processNPCInputs_frame 10 10); [lia | lia |].
  exact demoState_wf.
Defined.

Lemma effectiveDifficulty_witness :
  effectiveDifficulty (createNPC "bot" "Bot 1" easy) grownBot = medium /\
  (exists gs' npcs' k',
     processNPCInputs 10 10 halves demoState demoAgents 0
       = Ok (gs', npcs', k') /\
     Forall2
       (fun a a' => fst a' = fst a /\
                    difficulty (snd a') = difficulty (snd a))
       demoAgents npcs').
Proof.
  destruct (effectiveDifficulty_escalates_and_stored_tier_is_kept 10 10
              ltac:(lia) ltac:(lia)) as [Heasy [_ [_ [_ Htick]]]].
  split.
  - apply Heasy; [reflexivity | vm_compute; reflexivity].
  - apply Htick. exact demoState_wf.
Defined.




(** ** Food 51 and 52 steps away on an empty 40 x 30 walled board *)

Lemma food51State_wf : wellFormed food51State.
Proof. repeat constructor; intros _; discriminate. Qed.

Lemma food52State_wf : wellFormed food52State.
Proof. repeat constructor; intros _; discriminate. Qed.

(** C5 as stated fails: every route to the only food cell is longer than
    the depth cap of 50 steps, and the pathfinder still returns a path, of
    51 steps. *)
Lemma food_at_51_steps_is_found :
  (forall fm d p,
     Route 40 30 food51State "bot" (mkPos 0 0) fm d p ->
     In p (food food51State) -> depthCap < d) /\
  findPathToClosestFood 40 30 (mkPos 0 0) food51State "bot"
    = Ok (Some (Down, 51)).
Proof.
  split.
  - intros fm d p R [<- | []].
    pose proof (Route_manhattan 40 30 food51State "bot" _ _ _ _ eq_refl R) as M.
    simpl in M. unfold depthCap. lia.
  - vm_compute. reflexivity.
Qed.

Lemma none_beyond_cap_witness :
  findPathToClosestFood 40 30 (mkPos 0 0) food52State "bot" = Ok None.
Proof.
  apply (findPathToClosestFood_none_beyond_cap 40 30 food52State "bot"
           food52State_wf); [lia | lia |].
  intros fm d p R [<- | []].
  pose proof (Route_manhattan 40 30 food52State "bot" _ _ _ _ eq_refl R) as M.
  simpl in M. unfold depthCap. lia.
Defined.

(** ** A snake of 101 segments on a 40 x 30 walled board

    The head is at (1,0) with the neck below it; the body runs down the left
    edge, along the bottom edge, up column 22 and back along row 2 to the
    tail at (1,2).  The cell (0,0), left of the head, is a pocket of one
    cell and holds the only food; right of the head lie more than five
    hundred free cells. *)

Example longSnake_is_a_snake :
  List.length longSnake = 101%nat /\
  contiguous longSnake = true /\
  distinct longSnake = true /\
  forallb (fun c => negb (outOfBounds 40 30 c)) longSnake = true.
Proof. repeat split; vm_compute; reflexivity. Qed.

(** The values the policy sees on the way: the safe moves, the food path,
    and the room behind each safe move under the cap of the survival
    search. *)
Example pocketState_trace :
  filterSafe 40 30 (mkPos 1 0) pocketState "bot" possibleMoves
    = Ok [Left; Right] /\
  findPathToClosestFood 40 30 (mkPos 1 0) pocketState "bot"
    = Ok (Some (Left, 1)) /\
  countAccessibleTiles 40 30 (mkPos 0 0) pocketState "bot" 100 = Ok 1 /\
  countAccessibleTiles 40 30 (mkPos 2 0) pocketState "bot" 100 = Ok 100 /\
  stepDistance 40 30 pocketState (mkPos 1 2) (mkPos 0 0) = 3 /\
  stepDistance 40 30 pocketState (mkPos 1 2) (mkPos 2 0) = 3.
Proof. repeat split; vm_compute; reflexivity. Qed.

(** C1 at this state: the top-tier agent is outside the delay gate, the move
    to the right is safe and leads to room for the whole snake, and the
    policy returns the move to the left, into a cell the estimator certifies
    as a dead end (one reachable cell for 101 segments). *)
Theorem hard_tier_enters_dead_end_beyond_survival_cap :
  wellFormed pocketState /\
  snakeLength longBot = 101 /\
  effectiveDifficulty hardAgent longBot = hard /\
  decisionDelay hardAgent = 0 /\
  isMoveImmediatelySafe 40 30 (mkPos 1 0) Right pocketState "bot" = Ok true /\
  roomy 40 30 pocketState longBot (mkPos 1 0) Right /\
  decideNPCMove 40 30 halves hardAgent pocketState longBot 0
    = Ok (Some Left, hardAgent, 1%nat) /\
  deadEnd 40 30 pocketState longBot (mkPos 1 0) Left.
Proof.
  split; [repeat constructor; intros _; discriminate |].
  split; [vm_compute; reflexivity |].
  split; [vm_compute; reflexivity |].
  split; [reflexivity |].
  split; [vm_compute; reflexivity |].
  split; [exists 101; split; [vm_compute; reflexivity | vm_compute; discriminate] |].
  split; [vm_compute; reflexivity |].
  exists 1. split; [vm_compute; reflexivity | vm_compute; reflexivity].
Qed.

(** * The further properties on concrete game states *)

Lemma pocketState_wf : wellFormed pocketState.
Proof. repeat constructor; intros _; discriminate. Qed.

Lemma getNextCoord_wrap_witness :
  outOfBounds 10 10 (getNextCoord 10 10 (mkPos 0 0) Left false) = false /\
  getNextCoord 10 10 (mkPos 0 0) Left false = mkPos ((0 - 1) mod 10) 0.
Proof.
  apply (getNextCoord_wrap_stays_on_board 10 10 ltac:(lia) ltac:(lia)
           (mkPos 0 0) Left).
  reflexivity.
Defined.

Lemma getNextCoord_back_witness :
  getNextCoord 10 10 (getNextCoord 10 10 (mkPos 0 0) Left false)
    (opposites Left) false = mkPos 0 0.
Proof.
  apply (getNextCoord_opposite_leads_back 10 10 ltac:(lia) ltac:(lia)
           (mkPos 0 0) Left false).
  right. reflexivity.
Defined.

Lemma stepDistance_witness :
  stepDistance 10 10 openState (mkPos 1 1) (mkPos 8 3)
  = stepDistance 10 10 openState (mkPos 8 3) (mkPos 1 1) /\
  0 <= stepDistance 10 10 openState (mkPos 1 1) (mkPos 8 3)
    <= Z.abs (1 - 8) + Z.abs (1 - 3) /\
  (stepDistance 10 10 openState (mkPos 1 1) (mkPos 8 3) = 0
   <-> mkPos 1 1 = mkPos 8 3) /\
  (wallMode openState = false ->
   2 * stepDistance 10 10 openState (mkPos 1 1) (mkPos 8 3) <= 10 + 10).
Proof.
  apply (stepDistance_bounds 10 10 ltac:(lia) ltac:(lia) openState
           (mkPos 1 1) (mkPos 8 3)); reflexivity.
Defined.

Lemma first_move_safe_witness :
  isMoveImmediatelySafe 10 10 (mkPos 5 5) Up demoState "bot" = Ok true /\
  1 <= 5 <= depthCap + 1.
Proof.
  apply (findPathToClosestFood_first_move_is_safe 10 10 demoState "bot"
           demoState_wf ltac:(lia) ltac:(lia) (mkPos 5 5) Up 5).
  vm_compute. reflexivity.
Defined.

Lemma none_iff_witness :
  (findPathToClosestFood 40 30 (mkPos 0 0) food52State "bot" = Ok None <->
   (forall fm d p,
      Route 40 30 food52State "bot" (mkPos 0 0) fm d p ->
      In p (food food52State) -> depthCap + 1 < d)) /\
  (food food52State = [] ->
   findPathToClosestFood 40 30 (mkPos 0 0) food52State "bot" = Ok None) /\
  (forall e,
     findPathToClosestFood 40 30 (mkPos 0 0) food52State "bot" <> Err e).
Proof.
  apply (findPathToClosestFood_none_iff 40 30 food52State "bot"
           food52State_wf); lia.
Defined.

Lemma monotone_witness :
  exists v1 v2,
    countAccessibleTiles 10 10 (mkPos 5 4) demoState "bot" 3 = Ok v1 /\
    countAccessibleTiles 10 10 (mkPos 5 4) demoState "bot" 7 = Ok v2 /\
    1 <= v1 <= 3 /\ v1 <= v2 <= 7 /\ (v1 < 3 -> v2 = v1).
Proof.
  apply (countAccessibleTiles_monotone_in_limit 10 10 demoState "bot"
           demoState_wf); lia.
Defined.

Lemma sealed_witness :
  countAccessibleTiles 40 30 (mkPos 0 0) pocketState "bot" 101 = Ok 1 <->
  (forall m,
     next 40 30 pocketState (mkPos 0 0) m = mkPos 0 0 \/
     isOccupied 40 30 (next 40 30 pocketState (mkPos 0 0) m) pocketState "bot"
     = Ok true).
Proof.
  apply (countAccessibleTiles_one_iff_sealed 40 30 pocketState "bot"
           pocketState_wf); lia.
Defined.

Lemma pickTargetFood_witness :
  exists f,
    pickTargetFood (mkPos 5 5) demoState = Some f /\
    firstLeast
      (fun f0 => Z.abs (pos_x f0 - 5) + Z.abs (pos_y f0 - 5))
      (food demoState) f.
Proof.
  apply (proj2 (pickTargetFood_first_nearest (mkPos 5 5) demoState)).
  discriminate.
Defined.

Lemma hotColdMove_witness :
  firstLeast
    (fun m => stepDistance 10 10 openState (mkPos 9 0)
                (getNextCoord 10 10 (mkPos 0 0) m (wallMode openState)))
    [Up; Left; Right]
    (hotColdMove 10 10 (mkPos 0 0) openState Up [Up; Left; Right]).
Proof.
  apply (proj2 (hotColdMove_first_least 10 10 (mkPos 0 0) openState Up
                  [Left; Right]) (mkPos 9 0)).
  reflexivity.
Defined.

Lemma decisionDelay_witness :
  0 <= decisionDelay hardAgent <= Z.max (decisionDelay hardAgent) 10.
Proof.
  apply (proj1 (decisionDelay_never_negative 10 10) halves hardAgent demoState
           demoBot 0%nat (Some Up) hardAgent 1%nat).
  - right. right. reflexivity.
  - vm_compute. reflexivity.
  - simpl. lia.
Defined.

Lemma two_draws_witness :
  decideNPCMove 10 10 halves hardAgent demoState demoBot 0
  = decideNPCMove 10 10 halves' hardAgent demoState demoBot 0.
Proof.
  apply (proj1 (decideNPCMove_reads_at_most_two_draws 10 10) halves halves');
    reflexivity.
Defined.

Lemma holds_for_delay_witness :
  consultEach 10 10 halves (setDecisionDelay hardAgent 2)
    [(demoState, demoBot); (demoState, demoBot)] 0
  = Ok (repeat None 2, setDecisionDelay (setDecisionDelay hardAgent 2) 0,
        0%nat).
Proof.
  apply (consultEach_holds_for_delay 10 10 halves
           [(demoState, demoBot); (demoState, demoBot)]
           (setDecisionDelay hardAgent 2) 0).
  - reflexivity.
  - repeat constructor; discriminate.
Defined.

Lemma without_agents_witness :
  processNPCInputs 10 10 halves demoState [] 0 = Ok (demoState, [], 0%nat).
Proof.
  apply (processNPCInputs_without_agents 10 10 halves demoState [] 0).
  intros p _ _ _. reflexivity.
Defined.

Lemma survivalMove_witness :
  exists b vb,
    In b [Left; Right] /\
    countAccessibleTiles 40 30
      (getNextCoord 40 30 (mkPos 1 0) b (wallMode pocketState)) pocketState
      (player_id longBot) 100 = Ok vb /\
    (forall m, In m [Left; Right] ->
       exists v,
         countAccessibleTiles 40 30
           (getNextCoord 40 30 (mkPos 1 0) m (wallMode pocketState))
           pocketState (player_id longBot) 100 = Ok v /\ v <= vb) /\
    (snakeLength longBot <= vb ->
     survivalMove 40 30 (mkPos 1 0) pocketState longBot [Left; Right]
     = Ok (Some b)) /\
    (vb < snakeLength longBot ->
     exists m,
       survivalMove 40 30 (mkPos 1 0) pocketState longBot [Left; Right]
       = Ok (Some m) /\
       firstLeast
         (fun m0 => stepDistance 40 30 pocketState (mkPos 1 2)
                      (getNextCoord 40 30 (mkPos 1 0) m0
                         (wallMode pocketState)))
         [Left; Right] m).
Proof.
  apply (survivalMove_max_room_or_tail_chase 40 30 pocketState pocketState_wf
           ltac:(lia) ltac:(lia) (mkPos 1 0) (mkPos 1 2) longBot Left [Right]).
  vm_compute. reflexivity.
Defined.

Lemma proposes_witness :
  exists r npc' k',
    decideNPCMove 10 10 halves hardAgent demoState demoBot 0
    = Ok (r, npc', k') /\
    (r = None <->
     forall m,
       isMoveImmediatelySafe 10 10 (mkPos 5 5) m demoState (player_id demoBot)
       = Ok false).
Proof.
  apply (decideNPCMove_proposes_iff_some_move_is_safe 10 10 demoState
           demoState_wf ltac:(lia) ltac:(lia) halves hardAgent demoBot 0%nat
           (mkPos 5 5) [mkPos 5 6]).
  - reflexivity.
  - reflexivity.
  - simpl. lia.
  - split; [unfold Qle | unfold Qlt]; simpl; lia.
  - split; [unfold Qle | unfold Qlt]; simpl; lia.
Defined.

Lemma long_snake_witness :
  decideNPCMove 40 30 halves (createNPC "bot" "Bot 1" easy) pocketState
    longBot 0
  = Ok (Some (hotColdMove 40 30 (mkPos 1 0) pocketState Left [Left; Right]),
        setDecisionDelay (createNPC "bot" "Bot 1" easy) 4, 1%nat).
Proof.
  apply (long_lowest_tier_snakes_never_follow_the_path 40 30 pocketState
           pocketState_wf ltac:(lia) ltac:(lia) halves
           (createNPC "bot" "Bot 1" easy) longBot 0%nat (mkPos 1 0)
           (tl longSnake) Left [Right]).
  - reflexivity.
  - vm_compute. reflexivity.
  - reflexivity.
  - reflexivity.
  - simpl. lia.
  - unfold Qle. simpl. lia.
  - vm_compute. reflexivity.
Defined.
